(** * Minesweeper knowledge base: a shallow embedding of [minesweeper.py]

    The development follows the three classes of the source file:
    [Minesweeper] (only [nearby_mines], the oracle that produces truthful
    counts), [Sentence] and [MinesweeperAI].

    Modelling conventions.
    - A cell is a pair of Python integers, hence [Z * Z]; counts are Python
      integers, hence [Z] (they can and do become negative).
    - A Python [set] of cells is a [gset (Z * Z)].  Python does not fix the
      order in which a set is iterated; every [for x in some_set] of the
      source goes through the parameter [set_iter] of the call, about which
      the theorems assume only that it enumerates each element exactly
      once.  The order is a parameter of each call: the calls of a run need
      not iterate equal sets alike (see [reachable]).
    - [self.knowledge] is a Python list that [mark_mine] and [mark_safe]
      mutate while iterating over it.  The list iterator is modelled as in
      CPython: a position [i] into the current list, advanced by one after
      each visit, the loop ending when [i] is past the end of the list as it
      is at that moment.  The loop is run with fuel; [None] means that the
      fuel ran out before the iterator was exhausted.
    - [print] calls are dropped. *)

From stdpp Require Import base numbers option list sets gmap.

Local Open Scope Z_scope.

Abbreviation cell := (Z * Z)%type.

(** ** Python list indexing *)

(** The position that the Python index [i] denotes in a list of length
    [n]: negative indices count from the end; [None] is [IndexError]. *)
Definition py_index (n : nat) (i : Z) : option nat :=
  if decide (0 ≤ i < Z.of_nat n) then Some (Z.to_nat i)
  else if decide (- Z.of_nat n ≤ i < 0) then Some (Z.to_nat (Z.of_nat n + i))
  else None.

(** [l[i]] *)
Definition py_getitem {A} (l : list A) (i : Z) : option A :=
  k ← py_index (length l) i; l !! k.

(** [l[i] = x] *)
Definition py_setitem {A} (l : list A) (i : Z) (x : A) : option (list A) :=
  k ← py_index (length l) i; Some (<[k := x]> l).

(** ** class Minesweeper *)

Module Minesweeper.

(** The cells visited by
    [for i in range(cell[0] - 1, cell[0] + 2):
       for j in range(cell[1] - 1, cell[1] + 2):], in that order. *)
Definition window (c : cell) : list cell :=
  i ← [c.1 - 1; c.1; c.1 + 1];
  j ← [c.2 - 1; c.2; c.2 + 1];
  [(i, j)].

(** [0 <= i < self.height and 0 <= j < self.width] *)
Definition in_bounds (height width : Z) (c : cell) : bool :=
  bool_decide (0 ≤ c.1 < height) && bool_decide (0 ≤ c.2 < width).

(** [nearby_mines]; [board] is the set of cells [(i, j)] with
    [self.board[i][j]] true. *)
Definition nearby_mines (height width : Z) (board : gset cell) (c : cell) : Z :=
  foldl (λ count n,
           if decide (n = c) then count
           else if in_bounds height width n
                then (if decide (n ∈ board) then count + 1 else count)
                else count)
        0 (window c).

(** The game object. [board] is the list of rows, [board[i][j]] telling
    whether [(i, j)] holds a mine. *)
Record t : Type := mk {
  height : Z;
  width : Z;
  mines : gset cell;
  board : list (list bool);
  mines_found : gset cell
}.

(** The field built by the first two loops of [__init__]: [height] rows of
    [width] times [False] ([range(n)] is empty for [n <= 0]). *)
Definition empty_board (height width : Z) : list (list bool) :=
  replicate (Z.to_nat height) (replicate (Z.to_nat width) false).

(** The loop [while len(self.mines) != mines] of [__init__]. The pairs
    [(i, j)] that the two [random.randrange] calls return, one pair per
    iteration, are the input [draws]. [None]: the draws are used up with the
    loop still running, or an index is out of range. *)
Fixpoint place (draws : list cell) (wanted : Z) (ms : gset cell)
    (bd : list (list bool)) : option (gset cell * list (list bool)) :=
  if decide (Z.of_nat (size ms) = wanted) then Some (ms, bd)
  else
    match draws with
    | [] => None
    | (i, j) :: draws' =>
        row ← py_getitem bd i;
        b ← py_getitem row j;
        if b : bool then place draws' wanted ms bd
        else
          row' ← py_setitem row j true;
          bd' ← py_setitem bd i row';
          place draws' wanted ({[(i, j)]} ∪ ms) bd'
    end.

(** [__init__(height, width, mines)], given the random draws. *)
Definition init (height width wanted : Z) (draws : list cell) : option t :=
  '(ms, bd) ← place draws wanted ∅ (empty_board height width);
  Some (mk height width ms bd ∅).

(** [is_mine]: [self.board[i][j]], with Python's indexing. *)
Definition is_mine (g : t) (c : cell) : option bool :=
  row ← py_getitem (board g) c.1; py_getitem row c.2.

(** [nearby_mines] as the source computes it, from [self.board]. A
    neighbour inside the bounds whose board entry cannot be read makes the
    call fail ([None], [IndexError]). *)
Definition nearby_mines_board (g : t) (c : cell) : option Z :=
  foldl (λ acc n,
           count ← acc;
           if decide (n = c) then Some count
           else if in_bounds (height g) (width g) n
                then b ← is_mine g n;
                     Some (if b : bool then count + 1 else count)
                else Some count)
        (Some 0) (window c).

(** [won] *)
Definition won (g : t) : bool := bool_decide (mines_found g = mines g).

End Minesweeper.

(** ** class Sentence *)

Module Sentence.

Record t : Type := mk { cells : gset cell; count : Z }.

(** [__eq__] *)
Definition eq (a b : t) : bool :=
  bool_decide (cells a = cells b) && bool_decide (count a = count b).

(** [len(self.cells)] as a Python integer *)
Definition len (s : t) : Z := Z.of_nat (size (cells s)).

Definition known_mines (s : t) : gset cell :=
  if decide (len s = count s) then cells s else ∅.

Definition known_safes (s : t) : gset cell :=
  if decide (count s = 0) then cells s else ∅.

Definition mark_mine (s : t) (c : cell) : t :=
  if decide (c ∈ cells s) then mk (cells s ∖ {[c]}) (count s - 1) else s.

Definition mark_safe (s : t) (c : cell) : t :=
  if decide (c ∈ cells s) then mk (cells s ∖ {[c]}) (count s) else s.

End Sentence.

(** ** class MinesweeperAI *)

Module MinesweeperAI.

Record t : Type := mk {
  height : Z;
  width : Z;
  moves_made : gset cell;
  mines : gset cell;
  safes : gset cell;
  knowledge : list Sentence.t
}.

(** [__init__] *)
Definition init (height width : Z) : t := mk height width ∅ ∅ ∅ [].

(** [list.remove(x)]: drops the first element that compares equal to [x].
    (Python raises [ValueError] when there is none; the only caller passes
    an element of the list, see [visit_remove_present].) *)
Fixpoint list_remove (x : Sentence.t) (l : list Sentence.t) : list Sentence.t :=
  match l with
  | [] => []
  | y :: l' => if Sentence.eq y x then l' else y :: list_remove x l'
  end.

(** One visit of the loop
    [for sentence in self.knowledge:
       sentence.<mark>(cell)
       if len(sentence.cells) == 0: self.knowledge.remove(sentence)]
    with the iterator at position [i]: [None] when the iterator is
    exhausted, otherwise the list after the visit.  [upd] is the in-place
    update of the visited sentence. *)
Definition visit (upd : Sentence.t → Sentence.t) (i : nat)
    (kn : list Sentence.t) : option (list Sentence.t) :=
  s ← kn !! i;
  let s' := upd s in
  let kn' := <[i := s']> kn in
  Some (if decide (Sentence.len s' = 0) then list_remove s' kn' else kn').

(** The loop itself, from iterator position [i]. [Some] is normal exit
    (iterator exhausted), [None] is out of fuel. *)
Fixpoint for_sentence (fuel : nat) (upd : Sentence.t → Sentence.t) (i : nat)
    (kn : list Sentence.t) : option (list Sentence.t) :=
  match visit upd i kn with
  | None => Some kn
  | Some kn' =>
      match fuel with
      | O => None
      | S fuel' => for_sentence fuel' upd (S i) kn'
      end
  end.

Definition set_knowledge (st : t) (kn : list Sentence.t) : t :=
  mk (height st) (width st) (moves_made st) (mines st) (safes st) kn.

(** [mark_mine]: the loop gets as much fuel as the list is long on entry. *)
Definition mark_mine (st : t) (c : cell) : option t :=
  let st := mk (height st) (width st) (moves_made st) ({[c]} ∪ mines st)
               (safes st) (knowledge st) in
  kn ← for_sentence (length (knowledge st)) (λ s, Sentence.mark_mine s c) 0
                    (knowledge st);
  Some (set_knowledge st kn).

Definition mark_safe (st : t) (c : cell) : option t :=
  let st := mk (height st) (width st) (moves_made st) (mines st)
               ({[c]} ∪ safes st) (knowledge st) in
  kn ← for_sentence (length (knowledge st)) (λ s, Sentence.mark_safe s c) 0
                    (knowledge st);
  Some (set_knowledge st kn).

(** [for c in cs: self.<mark>(c)] *)
Fixpoint for_cells (mark : t → cell → option t) (st : t) (cs : list cell)
    : option t :=
  match cs with
  | [] => Some st
  | c :: cs' => st' ← mark st c; for_cells mark st' cs'
  end.

(** Body of the neighbour loop of [add_knowledge] (lines 215-230) for one
    [(i, j)]; the accumulator is [(neighbor_cells, count)]. *)
Definition scan_neighbor (st : t) (c : cell) (acc : gset cell * Z) (n : cell)
    : gset cell * Z :=
  if decide (n = c) then acc
  else if Minesweeper.in_bounds (height st) (width st) n then
    if decide (n ∈ safes st) then acc
    else if decide (n ∈ mines st) then (acc.1, acc.2 - 1)
    else ({[n]} ∪ acc.1, acc.2)
  else acc.

Definition scan_neighbors (st : t) (c : cell) (count : Z) : gset cell * Z :=
  foldl (scan_neighbor st c) (∅, count) (Minesweeper.window c).

(** Lines 245-247: the union of [known_mines()] and of [known_safes()] over
    the stored sentences. *)
Definition discover (kn : list Sentence.t) : gset cell * gset cell :=
  foldl (λ acc s, (acc.1 ∪ Sentence.known_mines s,
                   acc.2 ∪ Sentence.known_safes s)) (∅, ∅) kn.

(** The three accumulators of step 5. *)
Record inferred : Type := mk_inferred {
  new_knowledge : list Sentence.t;
  cells_to_mark_as_safe : list cell;
  cells_to_mark_as_mines : list cell
}.

Section Ops.

(** The order in which Python iterates a set. *)
Variable set_iter : gset cell → list cell.

(** Body of the inner loop of step 5 (lines 261-278). *)
Definition infer_pair (acc : inferred) (sentenceA sentenceB : Sentence.t)
    : inferred :=
  if Sentence.eq sentenceA sentenceB then acc
  else if decide (Sentence.cells sentenceA ⊆ Sentence.cells sentenceB) then
    let new_sentence :=
      Sentence.mk (Sentence.cells sentenceB ∖ Sentence.cells sentenceA)
                  (Sentence.count sentenceB - Sentence.count sentenceA) in
    if decide (Sentence.count new_sentence = 0) then
      mk_inferred (new_knowledge acc)
        (cells_to_mark_as_safe acc ++ set_iter (Sentence.cells new_sentence))
        (cells_to_mark_as_mines acc)
    else if decide (Sentence.count new_sentence = Sentence.len new_sentence) then
      mk_inferred (new_knowledge acc) (cells_to_mark_as_safe acc)
        (cells_to_mark_as_mines acc ++ set_iter (Sentence.cells new_sentence))
    else
      mk_inferred (new_knowledge acc ++ [new_sentence])
        (cells_to_mark_as_safe acc) (cells_to_mark_as_mines acc)
  else acc.

(** Lines 256-278: both loops range over the same, unchanged list. *)
Definition infer (kn : list Sentence.t) : inferred :=
  foldl (λ acc sentenceA,
           foldl (λ acc sentenceB, infer_pair acc sentenceA sentenceB) acc kn)
        (mk_inferred [] [] []) kn.

(** Steps 1-3 of [add_knowledge] (lines 207-239). *)
Definition observe (st : t) (c : cell) (count : Z) : option t :=
  let st := mk (height st) (width st) ({[c]} ∪ moves_made st) (mines st)
               (safes st) (knowledge st) in
  st ← mark_safe st c;
  let '(neighbor_cells, count) := scan_neighbors st c count in
  if decide (Z.of_nat (size neighbor_cells) = count) then
    for_cells mark_mine st (set_iter neighbor_cells)
  else if decide (count = 0 ∧ 0 < Z.of_nat (size neighbor_cells)) then
    for_cells mark_safe st (set_iter neighbor_cells)
  else
    Some (set_knowledge st (knowledge st ++ [Sentence.mk neighbor_cells count])).

(** Step 4 (lines 243-252). *)
Definition propagate (st : t) : option t :=
  let '(discovered_mines, discovered_safes) := discover (knowledge st) in
  st ← for_cells mark_mine st (set_iter discovered_mines);
  for_cells mark_safe st (set_iter discovered_safes).

(** Step 5 (lines 256-284). *)
Definition resolve (st : t) : option t :=
  let r := infer (knowledge st) in
  let st := set_knowledge st (knowledge st ++ new_knowledge r) in
  st ← for_cells mark_mine st (cells_to_mark_as_mines r);
  for_cells mark_safe st (cells_to_mark_as_safe r).

Definition add_knowledge (st : t) (c : cell) (count : Z) : option t :=
  st ← observe st c count;
  st ← propagate st;
  resolve st.

(** [make_safe_move]; [choice] is [random.choice]. *)
Definition make_safe_move (choice : list cell → cell) (st : t)
    : option cell :=
  let possible_moves :=
    filter (λ move, (move ∉ moves_made st) ∧ (move ∉ mines st))
           (set_iter (safes st)) in
  match possible_moves with
  | [] => None
  | _ :: _ => Some (choice possible_moves)
  end.

End Ops.

(** [make_random_move]; [i] and [j] are what the two [random.randrange]
    calls return. Both branches of the [if] return, so the body of
    [while True] runs once. *)
Definition make_random_move (st : t) (i j : Z) : option cell :=
  if decide ((i, j) ∉ mines st ∧ (i, j) ∉ moves_made st)
  then Some (i, j) else None.

End MinesweeperAI.

(** * Specification vocabulary *)

Import Minesweeper MinesweeperAI.

(** [returns m Q]: the computation [m] exits normally (the fuel was
    enough) and its result satisfies [Q]. *)
Definition returns {A} (m : option A) (Q : A → Prop) : Prop :=
  ∃ a, m = Some a ∧ Q a.

(** Python iterates a set in an order of its own, each element once. *)
Definition iter_ok (set_iter : gset cell → list cell) : Prop :=
  ∀ X, set_iter X ≡ₚ elements X.

(** Two such orders: that of [elements], and its reverse. *)
Definition reversed (X : gset cell) : list cell := reverse (elements X).

(** What a marking leaves alone. *)
Definition same_board (st st' : t) : Prop :=
  height st' = height st ∧ width st' = width st ∧
  moves_made st' = moves_made st.

(** The neighbours of [c]: the cells within one row and one column of [c],
    [c] excluded, inside the board. *)
Definition neighbors (h w : Z) (c : cell) : gset cell :=
  filter (λ n, n ≠ c ∧ in_bounds h w n) (list_to_set (window c) : gset cell).

(** The neighbours of [c] that the knowledge base has not classified. *)
Definition unclassified (st : t) (c : cell) : gset cell :=
  filter (λ n, (n ∉ safes st) ∧ (n ∉ mines st))
         (neighbors (height st) (width st) c).

(** The neighbours of [c] that the neighbour loop counts as known mines. *)
Definition mine_neighbors (st : t) (c : cell) : gset cell :=
  filter (λ n, (n ∉ safes st) ∧ (n ∈ mines st))
         (neighbors (height st) (width st) c).

(** A sentence is true of a mine placement [board] when exactly [count] of
    its cells are mines. *)
Definition true_of (board : gset cell) (s : Sentence.t) : Prop :=
  Z.of_nat (size (Sentence.cells s ∩ board)) = Sentence.count s.

(** The knowledge base says nothing wrong about [board]. *)
Record sound (board : gset cell) (st : t) : Prop := {
  sound_safes : safes st ## board;
  sound_mines : mines st ⊆ board;
  sound_knowledge : Forall (true_of board) (knowledge st)
}.

(** The states reached from a fresh knowledge base by [add_knowledge]
    calls, with arbitrary arguments. The order in which a set is iterated
    depends on how the set was built, not only on its elements, so every
    call comes with an iteration order of its own. *)
Inductive reachable (h w : Z) : t → Prop :=
  | reachable_init : reachable h w (init h w)
  | reachable_step set_iter st c count st' :
      reachable h w st →
      iter_ok set_iter →
      add_knowledge set_iter st c count = Some st' →
      reachable h w st'.

(** The states reached when every call reports, for some cell, the true
    number of mines of [board] around it. The observed cell itself is not
    constrained: it may be a mine of [board]. *)
Inductive reachable_counts (board : gset cell) (h w : Z) : t → Prop :=
  | counts_init : reachable_counts board h w (init h w)
  | counts_step set_iter st c st' :
      reachable_counts board h w st →
      iter_ok set_iter →
      add_knowledge set_iter st c (nearby_mines h w board c) = Some st' →
      reachable_counts board h w st'.

(** The same, when moreover every observed cell is not a mine of [board],
    as in a game: the board reports a count for a cell that was probed
    without exploding ("for a given safe cell" in the docstring of
    [add_knowledge]). *)
Inductive reachable_truthful (board : gset cell) (h w : Z) : t → Prop :=
  | truthful_init : reachable_truthful board h w (init h w)
  | truthful_step set_iter st c st' :
      reachable_truthful board h w st →
      iter_ok set_iter →
      c ∉ board →
      add_knowledge set_iter st c (nearby_mines h w board c) = Some st' →
      reachable_truthful board h w st'.

(** Field-wise concatenation of the accumulators of step 5. *)
Definition app_inferred (x y : inferred) : inferred :=
  mk_inferred (new_knowledge x ++ new_knowledge y)
              (cells_to_mark_as_safe x ++ cells_to_mark_as_safe y)
              (cells_to_mark_as_mines x ++ cells_to_mark_as_mines y).

(** What one ordered pair of sentences contributes in step 5. *)
Definition pair_inferred (set_iter : gset cell → list cell)
    (A B : Sentence.t) : inferred :=
  infer_pair set_iter (mk_inferred [] [] []) A B.

(** The candidate that subset resolution derives from the ordered pair
    [(A, B)]: [B.cells - A.cells = B.count - A.count]. *)
Definition candidate (A B : Sentence.t) : Sentence.t :=
  Sentence.mk (Sentence.cells B ∖ Sentence.cells A)
              (Sentence.count B - Sentence.count A).

(** A state that direct propagation and subset resolution cannot extend:
    what every stored sentence makes known is recorded, and every candidate
    of subset resolution is either recorded (all safe, all mines) or
    already stored. *)
Definition saturated (st : t) : Prop :=
  (∀ s, s ∈ knowledge st →
        Sentence.known_mines s ⊆ mines st ∧
        Sentence.known_safes s ⊆ safes st) ∧
  (∀ A B, A ∈ knowledge st → B ∈ knowledge st → Sentence.eq A B = false →
          Sentence.cells A ⊆ Sentence.cells B →
          if decide (Sentence.count (candidate A B) = 0)
          then Sentence.cells (candidate A B) ⊆ safes st
          else if decide (Sentence.count (candidate A B)
                          = Sentence.len (candidate A B))
               then Sentence.cells (candidate A B) ⊆ mines st
               else candidate A B ∈ knowledge st).

(** [random.choice] returns an element of a non-empty sequence. *)
Definition choice_ok (choice : list cell → cell) : Prop :=
  ∀ l, l ≠ [] → choice l ∈ l.

(** [bd[i][j]], with Python's indexing. *)
Definition grid_at (bd : list (list bool)) (c : cell) : option bool :=
  row ← py_getitem bd c.1; py_getitem row c.2.

(** The entry of row [c.1], column [c.2], for non-negative coordinates. *)
Definition cell_bit (bd : list (list bool)) (c : cell) : option bool :=
  row ← bd !! Z.to_nat c.1; row !! Z.to_nat c.2.

(** A field of [h] rows and [w] columns that holds exactly the mines
    [ms]. *)
Record grid_ok (h w : Z) (ms : gset cell) (bd : list (list bool)) : Prop := {
  grid_rows : length bd = Z.to_nat h;
  grid_cols : Forall (λ row, length row = Z.to_nat w) bd;
  grid_agree : ∀ c, in_bounds h w c →
                    grid_at bd c = Some (bool_decide (c ∈ ms));
  grid_inside : ∀ c, c ∈ ms → in_bounds h w c
}.

(** The board and the mine set of a game agree. *)
Definition board_ok (g : Minesweeper.t) : Prop :=
  grid_ok (Minesweeper.height g) (Minesweeper.width g)
          (Minesweeper.mines g) (Minesweeper.board g).

(** All the cells of a set lie on the board of [st]. *)
Definition on_board (st : t) (X : gset cell) : Prop :=
  ∀ c, c ∈ X → in_bounds (height st) (width st) c.

(** * Lemmas *)

(** ** Total-correctness assertions on [option] computations *)

Lemma returns_ret {A} (a : A) (Q : A → Prop) : Q a → returns (Some a) Q.
Proof. intros; exists a; auto. Qed.

Lemma returns_bind {A B} (m : option A) (k : A → option B) Q R :
  returns m Q → (∀ a, Q a → returns (k a) R) → returns (m ≫= k) R.
Proof. intros (a & -> & Ha) Hk. simpl. auto. Qed.

Lemma returns_mono {A} (m : option A) (Q R : A → Prop) :
  returns m Q → (∀ a, Q a → R a) → returns m R.
Proof. intros (a & -> & Ha) HQR. exists a; auto. Qed.

(** ** The loop over [self.knowledge] *)

Lemma list_remove_length x l : (length (list_remove x l) ≤ length l)%nat.
Proof. induction l as [|y l IH]; simpl; [lia|]. destruct (Sentence.eq y x); simpl; lia. Qed.

Lemma list_remove_Forall (P : Sentence.t → Prop) x l :
  Forall P l → Forall P (list_remove x l).
Proof.
  induction 1 as [|y l Hy Hl IH]; simpl; [constructor|].
  destruct (Sentence.eq y x); [assumption | constructor; assumption].
Qed.

Lemma Sentence_eq_refl s : Sentence.eq s s = true.
Proof. unfold Sentence.eq. rewrite !bool_decide_eq_true_2; auto. Qed.

(** [list.remove] finds what it is asked to remove whenever the argument
    is an element of the list: the list gets shorter by exactly one. *)
Lemma list_remove_present x l :
  x ∈ l → S (length (list_remove x l)) = length l.
Proof.
  induction l as [|y l IH]; simpl; intros Hx.
  - inversion Hx.
  - destruct (Sentence.eq y x) eqn:E; [reflexivity|]. simpl. f_equal.
    apply IH. apply elem_of_cons in Hx as [->|Hx]; [|assumption].
    rewrite Sentence_eq_refl in E. discriminate.
Qed.

(** In [visit], the sentence handed to [list.remove] is in the list. *)
Lemma visit_remove_present (upd : Sentence.t → Sentence.t) (i : nat)
    (kn : list Sentence.t) s :
  kn !! i = Some s → upd s ∈ <[i := upd s]> kn.
Proof.
  intros Hi. apply list_elem_of_lookup. exists i.
  apply list_lookup_insert_eq. eapply lookup_lt_Some, Hi.
Qed.

Lemma visit_spec (P : Sentence.t → Prop) upd (i : nat) kn kn' :
  visit upd i kn = Some kn' →
  (i < length kn)%nat ∧ (length kn' ≤ length kn)%nat ∧
  (Forall P kn → (∀ s, P s → P (upd s)) → Forall P kn').
Proof.
  unfold visit. destruct (kn !! i) as [s|] eqn:Hi; simpl; [|discriminate].
  intros [= <-]. split; [eapply lookup_lt_Some, Hi|].
  split.
  - case_decide; [etrans; [apply list_remove_length|]|]; rewrite length_insert; lia.
  - intros Hkn Hupd.
    assert (Forall P (<[i := upd s]> kn)) as Hins.
    { apply Forall_insert; [assumption|]. apply Hupd. eapply Forall_lookup_1; eauto. }
    case_decide; [apply list_remove_Forall|]; assumption.
Qed.

(** The iterator is exhausted after at most [length kn - i] visits: each
    visit advances the position and never lengthens the list. *)
Lemma for_sentence_returns (P : Sentence.t → Prop) upd fuel i kn :
  (length kn ≤ fuel + i)%nat →
  Forall P kn → (∀ s, P s → P (upd s)) →
  returns (for_sentence fuel upd i kn)
          (λ kn', Forall P kn' ∧ (length kn' ≤ length kn)%nat).
Proof.
  revert i kn. induction fuel as [|fuel IH]; intros i kn Hfuel Hkn Hupd; simpl.
  - destruct (visit upd i kn) as [kn'|] eqn:Hv.
    + apply (visit_spec P) in Hv as (Hlt & _). lia.
    + apply returns_ret. auto.
  - destruct (visit upd i kn) as [kn'|] eqn:Hv.
    + apply (visit_spec P) in Hv as (Hlt & Hlen & HP).
      eapply returns_mono; [apply IH; [lia | auto | auto]|].
      simpl. intros kn'' [? ?]. split; [assumption | lia].
    + apply returns_ret. auto.
Qed.

(** ** [mark_mine], [mark_safe] and the loops that call them *)

Lemma mark_mine_spec (P : Sentence.t → Prop) st c :
  Forall P (knowledge st) → (∀ s, P s → P (Sentence.mark_mine s c)) →
  returns (mark_mine st c) (λ st',
    same_board st st' ∧ mines st' = {[c]} ∪ mines st ∧ safes st' = safes st ∧
    Forall P (knowledge st') ∧
    (length (knowledge st') ≤ length (knowledge st))%nat).
Proof.
  intros Hkn Hupd. unfold mark_mine. simpl.
  eapply returns_bind.
  - apply (for_sentence_returns P); [lia | exact Hkn | exact Hupd].
  - simpl. intros kn' [? ?]. apply returns_ret. simpl. unfold same_board. auto.
Qed.

Lemma mark_safe_spec (P : Sentence.t → Prop) st c :
  Forall P (knowledge st) → (∀ s, P s → P (Sentence.mark_safe s c)) →
  returns (mark_safe st c) (λ st',
    same_board st st' ∧ mines st' = mines st ∧ safes st' = {[c]} ∪ safes st ∧
    Forall P (knowledge st') ∧
    (length (knowledge st') ≤ length (knowledge st))%nat).
Proof.
  intros Hkn Hupd. unfold mark_safe. simpl.
  eapply returns_bind.
  - apply (for_sentence_returns P); [lia | exact Hkn | exact Hupd].
  - simpl. intros kn' [? ?]. apply returns_ret. simpl. unfold same_board. auto.
Qed.

Lemma for_cells_mark_mine (P : Sentence.t → Prop) cs : ∀ st,
  Forall P (knowledge st) →
  (∀ c s, c ∈ cs → P s → P (Sentence.mark_mine s c)) →
  returns (for_cells mark_mine st cs) (λ st',
    same_board st st' ∧ mines st' = list_to_set cs ∪ mines st ∧
    safes st' = safes st ∧ Forall P (knowledge st') ∧
    (length (knowledge st') ≤ length (knowledge st))%nat).
Proof.
  induction cs as [|c cs IH]; intros st Hkn Hupd; simpl.
  - apply returns_ret. unfold same_board. repeat split; auto. clear. set_solver.
  - eapply returns_bind.
    + apply (mark_mine_spec P); [exact Hkn|]. intros s. apply Hupd. left.
    + simpl. intros st1 ((Hh & Hw & Hm) & Hmi & Hsa & Hkn1 & Hlen).
      eapply returns_mono.
      * apply IH; [exact Hkn1|]. intros c' s Hc'. apply Hupd. right. exact Hc'.
      * simpl. intros st2 ((Hh2 & Hw2 & Hm2) & Hmi2 & Hsa2 & Hkn2 & Hlen2).
        unfold same_board. rewrite Hh2, Hw2, Hm2, Hmi2, Hsa2, Hmi.
        repeat split; auto; [clear; set_solver | lia].
Qed.

Lemma for_cells_mark_safe (P : Sentence.t → Prop) cs : ∀ st,
  Forall P (knowledge st) →
  (∀ c s, c ∈ cs → P s → P (Sentence.mark_safe s c)) →
  returns (for_cells mark_safe st cs) (λ st',
    same_board st st' ∧ mines st' = mines st ∧
    safes st' = list_to_set cs ∪ safes st ∧ Forall P (knowledge st') ∧
    (length (knowledge st') ≤ length (knowledge st))%nat).
Proof.
  induction cs as [|c cs IH]; intros st Hkn Hupd; simpl.
  - apply returns_ret. unfold same_board. repeat split; auto. clear. set_solver.
  - eapply returns_bind.
    + apply (mark_safe_spec P); [exact Hkn|]. intros s. apply Hupd. left.
    + simpl. intros st1 ((Hh & Hw & Hm) & Hmi & Hsa & Hkn1 & Hlen).
      eapply returns_mono.
      * apply IH; [exact Hkn1|]. intros c' s Hc'. apply Hupd. right. exact Hc'.
      * simpl. intros st2 ((Hh2 & Hw2 & Hm2) & Hmi2 & Hsa2 & Hkn2 & Hlen2).
        unfold same_board. rewrite Hh2, Hw2, Hm2, Hmi2, Hsa2, Hsa.
        repeat split; auto; [clear; set_solver | lia].
Qed.

(** ** The neighbourhood *)

Lemma window_NoDup c : NoDup (window c).
Proof.
  destruct c as [r k]. unfold window. simpl.
  repeat (apply NoDup_cons; split;
          [intros H; repeat (apply elem_of_cons in H as [H|H]; [injection H; lia|]);
           inversion H|]).
  apply NoDup_nil_2.
Qed.

Lemma elem_of_window c n :
  n ∈ window c ↔ (c.1 - 1 ≤ n.1 ≤ c.1 + 1 ∧ c.2 - 1 ≤ n.2 ≤ c.2 + 1).
Proof.
  destruct c as [r k], n as [i j]. unfold window. simpl. split.
  - intros H. repeat (apply elem_of_cons in H as [H|H]; [injection H; lia|]).
    inversion H.
  - intros [Hi Hj].
    assert (i = r - 1 ∨ i = r ∨ i = r + 1) as [->|[->| ->]] by lia;
    assert (j = k - 1 ∨ j = k ∨ j = k + 1) as [->|[->| ->]] by lia;
    rewrite !elem_of_cons; tauto.
Qed.

(** [neighbors] is the Moore neighbourhood clipped to the board. *)
Lemma elem_of_neighbors (h w : Z) (c n : cell) :
  n ∈ neighbors h w c ↔
  n ≠ c ∧ (c.1 - 1 ≤ n.1 ≤ c.1 + 1 ∧ c.2 - 1 ≤ n.2 ≤ c.2 + 1) ∧
  (0 ≤ n.1 < h ∧ 0 ≤ n.2 < w).
Proof.
  unfold neighbors, in_bounds.
  rewrite elem_of_filter, elem_of_list_to_set, elem_of_window.
  rewrite andb_True, !bool_decide_spec. tauto.
Qed.

Lemma filter_insert (P : cell → Prop) `{!∀ x, Decision (P x)} (x : cell)
    (X : gset cell) :
  filter P ({[x]} ∪ X) =
  if decide (P x) then {[x]} ∪ filter P X else filter P X.
Proof.
  apply set_eq. intros y. case_decide; set_unfold; naive_solver.
Qed.

Lemma filter_nil (P : cell → Prop) `{!∀ x, Decision (P x)} :
  filter P (∅ : gset cell) = ∅.
Proof. apply set_eq. intros y. set_unfold. tauto. Qed.

Lemma size_insert (x : cell) (X : gset cell) :
  x ∉ X → size ({[x]} ∪ X) = S (size X).
Proof.
  intros Hx. rewrite size_union, size_singleton; [reflexivity|].
  apply disjoint_singleton_l, Hx.
Qed.

(** The neighbour loop of [add_knowledge], run over a duplicate-free list
    of candidates from the accumulator [(N, k)]. *)
Lemma scan_fold st c l : NoDup l → ∀ N k,
  foldl (scan_neighbor st c) (N, k) l =
  (filter (λ n, (n ≠ c ∧ in_bounds (height st) (width st) n) ∧
                (n ∉ safes st) ∧ (n ∉ mines st)) (list_to_set l : gset cell) ∪ N,
   k - Z.of_nat (size (filter
         (λ n, (n ≠ c ∧ in_bounds (height st) (width st) n) ∧
               (n ∉ safes st) ∧ (n ∈ mines st)) (list_to_set l : gset cell)))).
Proof.
  induction 1 as [|x l Hx Hl IH]; intros N k.
  - simpl. rewrite !filter_nil, size_empty, (left_id_L ∅ (∪)), Z.sub_0_r.
    reflexivity.
  - simpl foldl. rewrite !list_to_set_cons, !filter_insert.
    assert (x ∉ (list_to_set l : gset cell)) as Hx'
      by (rewrite elem_of_list_to_set; exact Hx).
    unfold scan_neighbor at 2.
    destruct (decide (x = c)) as [Hc|Hc];
      [|destruct (in_bounds (height st) (width st) x) eqn:Hb;
        [destruct (decide (x ∈ safes st)) as [Hs|Hs];
         [|destruct (decide (x ∈ mines st)) as [Hm|Hm]]|]];
      rewrite IH; cbn [fst snd].
    + rewrite !decide_False by (simpl; tauto). reflexivity.
    + rewrite !decide_False by (simpl; tauto). reflexivity.
    + rewrite decide_False by (simpl; tauto). rewrite decide_True by (simpl; tauto).
      rewrite size_insert by (rewrite elem_of_filter; tauto).
      f_equal. lia.
    + rewrite decide_True by (simpl; tauto). rewrite decide_False by (simpl; tauto).
      f_equal. clear. set_solver.
    + rewrite !decide_False by (simpl; tauto). reflexivity.
Qed.

(** What the neighbour loop computes: the unclassified neighbours, and the
    count lowered by one for each neighbour held to be a mine. *)
Lemma scan_neighbors_spec st c count :
  scan_neighbors st c count =
  (unclassified st c, count - Z.of_nat (size (mine_neighbors st c))).
Proof.
  unfold scan_neighbors. rewrite scan_fold by apply window_NoDup.
  unfold unclassified, mine_neighbors, neighbors. f_equal.
  - rewrite (right_id_L ∅ (∪)). apply set_eq. intros n.
    rewrite !elem_of_filter. tauto.
  - do 3 f_equal. apply set_eq. intros n. rewrite !elem_of_filter. tauto.
Qed.

(** Marking the probed cell itself does not change how its neighbours are
    classified. *)
Lemma unclassified_frame st st' c :
  height st' = height st → width st' = width st → mines st' = mines st →
  safes st' = {[c]} ∪ safes st →
  unclassified st' c = unclassified st c ∧
  mine_neighbors st' c = mine_neighbors st c.
Proof.
  intros Hh Hw Hm Hs. unfold unclassified, mine_neighbors.
  rewrite Hh, Hw, Hm, Hs. split; apply set_eq; intros n;
    rewrite !elem_of_filter, elem_of_neighbors, elem_of_union, elem_of_singleton;
    tauto.
Qed.

Lemma nearby_mines_fold (h w : Z) (board : gset cell) (c : cell)
    (l : list cell) : NoDup l → ∀ k : Z,
  foldl (λ count n,
           if decide (n = c) then count
           else if in_bounds h w n
                then (if decide (n ∈ board) then count + 1 else count)
                else count) k l =
  k + Z.of_nat (size (filter (λ n, (n ≠ c ∧ in_bounds h w n) ∧ n ∈ board)
                             (list_to_set l : gset cell))).
Proof.
  induction 1 as [|x l Hx Hl IH]; intros k.
  - simpl. rewrite filter_nil, size_empty. lia.
  - simpl foldl. rewrite list_to_set_cons, filter_insert, IH.
    assert (x ∉ (list_to_set l : gset cell)) as Hx'
      by (rewrite elem_of_list_to_set; exact Hx).
    destruct (decide (x = c)) as [Hc|Hc];
      [|destruct (in_bounds h w x) eqn:Hb;
        [destruct (decide (x ∈ board)) as [Hm|Hm]|]].
    + rewrite decide_False by (simpl; tauto). reflexivity.
    + rewrite decide_True by (simpl; tauto).
      rewrite size_insert by (rewrite elem_of_filter; tauto). lia.
    + rewrite decide_False by (simpl; tauto). reflexivity.
    + rewrite decide_False by (simpl; tauto). reflexivity.
Qed.

(** [nearby_mines] counts the neighbours that are mines. *)
Lemma nearby_mines_spec (h w : Z) (board : gset cell) (c : cell) :
  nearby_mines h w board c = Z.of_nat (size (neighbors h w c ∩ board)).
Proof.
  unfold nearby_mines. rewrite nearby_mines_fold by apply window_NoDup.
  unfold neighbors. rewrite Z.add_0_l. do 2 f_equal.
  apply set_eq. intros n. rewrite elem_of_intersection, !elem_of_filter. tauto.
Qed.

(** ** Sentences that are true of a mine placement *)

Lemma true_of_mark_mine (board : gset cell) s c :
  c ∈ board → true_of board s → true_of board (Sentence.mark_mine s c).
Proof.
  unfold true_of, Sentence.mark_mine. intros Hc Hs.
  case_decide as Hin; simpl; [|exact Hs].
  assert (Sentence.cells s ∩ board =
          {[c]} ∪ (Sentence.cells s ∖ {[c]}) ∩ board) as Heq.
  { apply set_eq. intros y. destruct (decide (y = c)); set_solver. }
  rewrite Heq, size_insert in Hs by set_solver. lia.
Qed.

Lemma true_of_mark_safe (board : gset cell) s c :
  c ∉ board → true_of board s → true_of board (Sentence.mark_safe s c).
Proof.
  unfold true_of, Sentence.mark_safe. intros Hc Hs.
  case_decide as Hin; simpl; [|exact Hs].
  replace ((Sentence.cells s ∖ {[c]}) ∩ board) with (Sentence.cells s ∩ board);
    [exact Hs|].
  apply set_eq. intros y. set_solver.
Qed.

Lemma full_count_all_mines (board X : gset cell) :
  size (X ∩ board) = size X → X ⊆ board.
Proof.
  intros Hsz.
  assert (X ∩ board = X) as Heq
    by (apply set_subseteq_size_eq; [set_solver | lia]).
  set_solver.
Qed.

Lemma zero_count_all_safe (board X : gset cell) :
  size (X ∩ board) = 0%nat → X ## board.
Proof. intros Hsz%size_empty_inv. set_solver. Qed.

Lemma known_mines_sound (board : gset cell) s :
  true_of board s → Sentence.known_mines s ⊆ board.
Proof.
  unfold true_of, Sentence.known_mines, Sentence.len. intros Hs.
  case_decide; [|set_solver]. apply full_count_all_mines. lia.
Qed.

Lemma known_safes_sound (board : gset cell) s :
  true_of board s → Sentence.known_safes s ## board.
Proof.
  unfold true_of, Sentence.known_safes. intros Hs.
  case_decide; [|set_solver]. apply zero_count_all_safe. lia.
Qed.

(** Subset resolution is a valid inference. *)
Lemma true_of_difference (board : gset cell) A B :
  Sentence.cells A ⊆ Sentence.cells B → true_of board A → true_of board B →
  true_of board (Sentence.mk (Sentence.cells B ∖ Sentence.cells A)
                             (Sentence.count B - Sentence.count A)).
Proof.
  unfold true_of. simpl. intros Hsub HA HB.
  assert (Sentence.cells B ∩ board =
          (Sentence.cells A ∩ board) ∪
          ((Sentence.cells B ∖ Sentence.cells A) ∩ board)) as Heq.
  { apply set_eq. intros y.
    destruct (decide (y ∈ Sentence.cells A)); set_solver. }
  rewrite Heq, size_union in HB by set_solver. lia.
Qed.

(** ** Step 4: what [discover] collects *)

Lemma discover_fold kn : ∀ acc : gset cell * gset cell,
  foldl (λ acc s, (acc.1 ∪ Sentence.known_mines s,
                   acc.2 ∪ Sentence.known_safes s)) acc kn =
  (acc.1 ∪ ⋃ (Sentence.known_mines <$> kn),
   acc.2 ∪ ⋃ (Sentence.known_safes <$> kn)).
Proof.
  induction kn as [|s kn IH]; intros [dm ds]; simpl.
  - f_equal; clear; set_solver.
  - rewrite IH. simpl. f_equal; clear; set_solver.
Qed.

Lemma discover_spec kn :
  discover kn = (⋃ (Sentence.known_mines <$> kn),
                 ⋃ (Sentence.known_safes <$> kn)).
Proof.
  unfold discover. rewrite discover_fold. simpl. f_equal; clear; set_solver.
Qed.

(** ** Step 5: what [infer] collects *)

Section Infer.
Variable set_iter : gset cell → list cell.

Lemma app_inferred_assoc x y z :
  app_inferred (app_inferred x y) z = app_inferred x (app_inferred y z).
Proof. unfold app_inferred. simpl. rewrite <- !(assoc_L (++)). reflexivity. Qed.

Lemma app_inferred_nil_r x : app_inferred x (mk_inferred [] [] []) = x.
Proof. destruct x. unfold app_inferred. simpl. rewrite !app_nil_r. reflexivity. Qed.

Lemma infer_pair_app acc A B :
  infer_pair set_iter acc A B = app_inferred acc (pair_inferred set_iter A B).
Proof.
  unfold pair_inferred, infer_pair.
  destruct (Sentence.eq A B); [symmetry; apply app_inferred_nil_r|].
  repeat case_decide; try (symmetry; apply app_inferred_nil_r);
    unfold app_inferred; simpl; rewrite ?app_nil_r; reflexivity.
Qed.

Lemma infer_inner A l : ∀ acc,
  foldl (λ acc B, infer_pair set_iter acc A B) acc l =
  app_inferred acc
    (mk_inferred (B ← l; new_knowledge (pair_inferred set_iter A B))
                 (B ← l; cells_to_mark_as_safe (pair_inferred set_iter A B))
                 (B ← l; cells_to_mark_as_mines (pair_inferred set_iter A B))).
Proof.
  induction l as [|B l IH]; intros acc; simpl.
  - symmetry. apply app_inferred_nil_r.
  - rewrite IH, infer_pair_app, app_inferred_assoc. reflexivity.
Qed.

Lemma infer_outer kn l : ∀ acc,
  foldl (λ acc A, foldl (λ acc B, infer_pair set_iter acc A B) acc kn) acc l =
  app_inferred acc
    (mk_inferred
       (A ← l; B ← kn; new_knowledge (pair_inferred set_iter A B))
       (A ← l; B ← kn; cells_to_mark_as_safe (pair_inferred set_iter A B))
       (A ← l; B ← kn; cells_to_mark_as_mines (pair_inferred set_iter A B))).
Proof.
  induction l as [|A l IH]; intros acc; simpl.
  - symmetry. apply app_inferred_nil_r.
  - rewrite IH, infer_inner, app_inferred_assoc. reflexivity.
Qed.

(** Every ordered pair of stored sentences contributes, in scan order. *)
Lemma infer_spec kn :
  infer set_iter kn =
  mk_inferred
    (A ← kn; B ← kn; new_knowledge (pair_inferred set_iter A B))
    (A ← kn; B ← kn; cells_to_mark_as_safe (pair_inferred set_iter A B))
    (A ← kn; B ← kn; cells_to_mark_as_mines (pair_inferred set_iter A B)).
Proof. unfold infer. rewrite infer_outer. reflexivity. Qed.

Lemma elem_of_bind2 {X} (f : Sentence.t → Sentence.t → list X)
    (kn : list Sentence.t) (x : X) :
  x ∈ (A ← kn; B ← kn; f A B) ↔ ∃ A B, A ∈ kn ∧ B ∈ kn ∧ x ∈ f A B.
Proof.
  rewrite list_elem_of_bind. split.
  - intros (A & (B & ? & ?)%list_elem_of_bind & ?). eauto.
  - intros (A & B & ? & ? & ?). exists A. split; [|assumption].
    apply list_elem_of_bind. eauto.
Qed.

Lemma elem_of_new_knowledge kn s :
  s ∈ new_knowledge (infer set_iter kn) ↔
  ∃ A B, A ∈ kn ∧ B ∈ kn ∧ s ∈ new_knowledge (pair_inferred set_iter A B).
Proof. rewrite infer_spec. apply elem_of_bind2. Qed.

Lemma elem_of_cells_to_mark_as_safe kn n :
  n ∈ cells_to_mark_as_safe (infer set_iter kn) ↔
  ∃ A B, A ∈ kn ∧ B ∈ kn ∧
         n ∈ cells_to_mark_as_safe (pair_inferred set_iter A B).
Proof. rewrite infer_spec. apply elem_of_bind2. Qed.

Lemma elem_of_cells_to_mark_as_mines kn n :
  n ∈ cells_to_mark_as_mines (infer set_iter kn) ↔
  ∃ A B, A ∈ kn ∧ B ∈ kn ∧
         n ∈ cells_to_mark_as_mines (pair_inferred set_iter A B).
Proof. rewrite infer_spec. apply elem_of_bind2. Qed.

End Infer.

(** ** The three phases of [add_knowledge]

    Each phase exits normally, whatever the iteration order; [P] is any
    property of sentences that the markings performed preserve. *)

Section Phases.
Variable set_iter : gset cell → list cell.
Variable P : Sentence.t → Prop.

Lemma observe_spec st c count :
  let N := unclassified st c in
  let k := count - Z.of_nat (size (mine_neighbors st c)) in
  Forall P (knowledge st) →
  (∀ s, P s → P (Sentence.mark_safe s c)) →
  (Z.of_nat (size N) = k →
   ∀ n s, n ∈ set_iter N → P s → P (Sentence.mark_mine s n)) →
  (Z.of_nat (size N) ≠ k → k = 0 →
   ∀ n s, n ∈ set_iter N → P s → P (Sentence.mark_safe s n)) →
  (Z.of_nat (size N) ≠ k → ¬ (k = 0 ∧ 0 < Z.of_nat (size N)) →
   P (Sentence.mk N k)) →
  returns (observe set_iter st c count) (λ st1,
    height st1 = height st ∧ width st1 = width st ∧
    moves_made st1 = {[c]} ∪ moves_made st ∧
    Forall P (knowledge st1) ∧
    (length (knowledge st1) ≤ S (length (knowledge st)))%nat ∧
    mines st1 =
      (if decide (Z.of_nat (size N) = k) then list_to_set (set_iter N) else ∅)
      ∪ mines st ∧
    safes st1 =
      (if decide (Z.of_nat (size N) = k) then ∅
       else if decide (k = 0 ∧ 0 < Z.of_nat (size N))
            then list_to_set (set_iter N) else ∅)
      ∪ ({[c]} ∪ safes st)).
Proof.
  intros N k Hkn Hself Hmine Hsafe Hnew. unfold observe.
  eapply returns_bind.
  { apply (mark_safe_spec P); [exact Hkn | exact Hself]. }
  cbv beta. intros st0 ((Hh & Hw & Hmv) & Hmi & Hsa & Hkn0 & Hlen0).
  cbn [height width moves_made mines safes knowledge] in *.
  rewrite scan_neighbors_spec.
  destruct (unclassified_frame st st0 c Hh Hw Hmi Hsa) as [-> ->].
  fold N. fold k.
  destruct (decide (Z.of_nat (size N) = k)) as [Hfull|Hfull];
    [|destruct (decide (k = 0 ∧ 0 < Z.of_nat (size N))) as [Hzero|Hzero]].
  - eapply returns_mono.
    + apply (for_cells_mark_mine P); [exact Hkn0|]. intros n s. apply Hmine, Hfull.
    + simpl. intros st1 ((Hh1 & Hw1 & Hmv1) & Hmi1 & Hsa1 & Hkn1 & Hlen1).
      rewrite Hh1, Hw1, Hmv1, Hmi1, Hsa1, Hh, Hw, Hmv, Hmi, Hsa.
      repeat split; auto; [lia | clear; set_solver].
  - eapply returns_mono.
    + apply (for_cells_mark_safe P); [exact Hkn0|]. intros n s.
      apply Hsafe; [exact Hfull | apply Hzero].
    + simpl. intros st1 ((Hh1 & Hw1 & Hmv1) & Hmi1 & Hsa1 & Hkn1 & Hlen1).
      rewrite Hh1, Hw1, Hmv1, Hmi1, Hsa1, Hh, Hw, Hmv, Hmi, Hsa.
      repeat split; auto; [lia | clear; set_solver].
  - apply returns_ret. simpl. rewrite Hh, Hw, Hmv, Hmi, Hsa.
    repeat split; auto; try (clear; set_solver).
    + apply Forall_app. split; [exact Hkn0|]. constructor; [|constructor].
      apply Hnew; assumption.
    + rewrite length_app. simpl. lia.
Qed.

Lemma propagate_spec st :
  let dm := ⋃ (Sentence.known_mines <$> knowledge st) in
  let ds := ⋃ (Sentence.known_safes <$> knowledge st) in
  Forall P (knowledge st) →
  (∀ n s, n ∈ set_iter dm → P s → P (Sentence.mark_mine s n)) →
  (∀ n s, n ∈ set_iter ds → P s → P (Sentence.mark_safe s n)) →
  returns (propagate set_iter st) (λ st2,
    same_board st st2 ∧ Forall P (knowledge st2) ∧
    (length (knowledge st2) ≤ length (knowledge st))%nat ∧
    mines st2 = list_to_set (set_iter dm) ∪ mines st ∧
    safes st2 = list_to_set (set_iter ds) ∪ safes st).
Proof.
  intros dm ds Hkn Hmine Hsafe. unfold propagate.
  rewrite discover_spec. fold dm. fold ds.
  eapply returns_bind.
  { apply (for_cells_mark_mine P); [exact Hkn | exact Hmine]. }
  simpl. intros st1 ((Hh1 & Hw1 & Hmv1) & Hmi1 & Hsa1 & Hkn1 & Hlen1).
  eapply returns_mono.
  { apply (for_cells_mark_safe P); [exact Hkn1 | exact Hsafe]. }
  simpl. intros st2 ((Hh2 & Hw2 & Hmv2) & Hmi2 & Hsa2 & Hkn2 & Hlen2).
  unfold same_board. rewrite Hh2, Hw2, Hmv2, Hmi2, Hsa2, Hh1, Hw1, Hmv1, Hmi1, Hsa1.
  repeat split; auto. lia.
Qed.

Lemma resolve_spec st :
  let r := infer set_iter (knowledge st) in
  Forall P (knowledge st) →
  Forall P (new_knowledge r) →
  (∀ n s, n ∈ cells_to_mark_as_mines r → P s → P (Sentence.mark_mine s n)) →
  (∀ n s, n ∈ cells_to_mark_as_safe r → P s → P (Sentence.mark_safe s n)) →
  returns (resolve set_iter st) (λ st3,
    same_board st st3 ∧ Forall P (knowledge st3) ∧
    (length (knowledge st3) ≤
       length (knowledge st) + length (new_knowledge r))%nat ∧
    mines st3 = list_to_set (cells_to_mark_as_mines r) ∪ mines st ∧
    safes st3 = list_to_set (cells_to_mark_as_safe r) ∪ safes st).
Proof.
  intros r Hkn Hnew Hmine Hsafe. unfold resolve. fold r.
  eapply returns_bind.
  { apply (for_cells_mark_mine P); [|exact Hmine].
    simpl. apply Forall_app. split; assumption. }
  simpl. intros st1 ((Hh1 & Hw1 & Hmv1) & Hmi1 & Hsa1 & Hkn1 & Hlen1).
  eapply returns_mono.
  { apply (for_cells_mark_safe P); [exact Hkn1 | exact Hsafe]. }
  simpl. intros st2 ((Hh2 & Hw2 & Hmv2) & Hmi2 & Hsa2 & Hkn2 & Hlen2).
  unfold same_board. rewrite Hh2, Hw2, Hmv2, Hmi2, Hsa2, Hh1, Hw1, Hmv1, Hmi1, Hsa1.
  simpl in *. rewrite length_app in Hlen1.
  repeat split; auto. lia.
Qed.

End Phases.

(** ** Iteration orders *)

Lemma iter_ok_elements : iter_ok elements.
Proof. intros X. reflexivity. Qed.

Lemma iter_ok_reversed : iter_ok reversed.
Proof. intros X. apply reverse_Permutation. Qed.

Lemma elem_of_set_iter (set_iter : gset cell → list cell) (X : gset cell)
    (n : cell) :
  iter_ok set_iter → n ∈ set_iter X ↔ n ∈ X.
Proof. intros Hit. rewrite (Hit X). apply elem_of_elements. Qed.

Lemma list_to_set_iter (set_iter : gset cell → list cell) (X : gset cell) :
  iter_ok set_iter → list_to_set (set_iter X) = X.
Proof.
  intros Hit. apply set_eq. intros n.
  rewrite elem_of_list_to_set. apply elem_of_set_iter, Hit.
Qed.

(** ** [add_knowledge] as the sequence of its phases *)

Lemma add_knowledge_phases set_iter st c count :
  let N := unclassified st c in
  let k := count - Z.of_nat (size (mine_neighbors st c)) in
  ∃ st1 st2 st3,
    observe set_iter st c count = Some st1 ∧
    propagate set_iter st1 = Some st2 ∧
    resolve set_iter st2 = Some st3 ∧
    add_knowledge set_iter st c count = Some st3 ∧
    (height st3 = height st ∧ width st3 = width st ∧
     moves_made st3 = {[c]} ∪ moves_made st) ∧
    mines st1 =
      (if decide (Z.of_nat (size N) = k) then list_to_set (set_iter N) else ∅)
      ∪ mines st ∧
    safes st1 =
      (if decide (Z.of_nat (size N) = k) then ∅
       else if decide (k = 0 ∧ 0 < Z.of_nat (size N))
            then list_to_set (set_iter N) else ∅)
      ∪ ({[c]} ∪ safes st) ∧
    mines st2 =
      list_to_set (set_iter (⋃ (Sentence.known_mines <$> knowledge st1)))
      ∪ mines st1 ∧
    safes st2 =
      list_to_set (set_iter (⋃ (Sentence.known_safes <$> knowledge st1)))
      ∪ safes st1 ∧
    mines st3 =
      list_to_set (cells_to_mark_as_mines (infer set_iter (knowledge st2)))
      ∪ mines st2 ∧
    safes st3 =
      list_to_set (cells_to_mark_as_safe (infer set_iter (knowledge st2)))
      ∪ safes st2.
Proof.
  intros N k.
  assert (∀ l : list Sentence.t, Forall (λ _, True) l) as Htriv
    by (intros l; apply Forall_forall; auto).
  destruct (observe_spec set_iter (λ _, True) st c count)
    as (st1 & H1 & Hh1 & Hw1 & Hmv1 & _ & _ & Hmi1 & Hsa1); auto.
  destruct (propagate_spec set_iter (λ _, True) st1)
    as (st2 & H2 & (Hh2 & Hw2 & Hmv2) & _ & _ & Hmi2 & Hsa2); auto.
  destruct (resolve_spec set_iter (λ _, True) st2)
    as (st3 & H3 & (Hh3 & Hw3 & Hmv3) & _ & _ & Hmi3 & Hsa3); auto.
  exists st1, st2, st3. unfold add_knowledge.
  rewrite H1. cbn [mbind option_bind]. rewrite H2. cbn [mbind option_bind].
  rewrite H3.
  repeat split; auto; congruence.
Qed.

(** Replaces the sets of freshly marked cells in the goal by variables. *)
Ltac forget_marked :=
  repeat match goal with
  | |- context [@list_to_set ?A ?C ?H1 ?H2 ?H3 ?l] =>
      generalize (@list_to_set A C H1 H2 H3 l); intros ?
  | |- context [if ?b then ?x else ?y] =>
      generalize (if b then x else y); intros ?
  end.

(** A call exits normally, keeps the board dimensions, records the move
    and the probed cell, and never forgets a classified cell. *)
Lemma add_knowledge_frame set_iter st c count :
  returns (add_knowledge set_iter st c count) (λ st',
    height st' = height st ∧ width st' = width st ∧
    moves_made st' = {[c]} ∪ moves_made st ∧
    c ∈ safes st' ∧ safes st ⊆ safes st' ∧ mines st ⊆ mines st').
Proof.
  destruct (add_knowledge_phases set_iter st c count)
    as (st1 & st2 & st3 & _ & _ & _ & Hak & (Hh & Hw & Hmv)
        & Hmi1 & Hsa1 & Hmi2 & Hsa2 & Hmi3 & Hsa3).
  exists st3. split; [exact Hak|].
  assert (c ∈ safes st1 ∧ safes st ⊆ safes st1 ∧ mines st ⊆ mines st1)
    as (Hc1 & Hs1 & Hm1).
  { rewrite Hmi1, Hsa1. clear. forget_marked. set_solver. }
  assert (safes st1 ⊆ safes st2 ∧ mines st1 ⊆ mines st2) as (Hs2 & Hm2).
  { rewrite Hmi2, Hsa2. clear. forget_marked. set_solver. }
  assert (safes st2 ⊆ safes st3 ∧ mines st2 ⊆ mines st3) as (Hs3 & Hm3).
  { rewrite Hmi3, Hsa3. clear. forget_marked. set_solver. }
  split; [exact Hh|]. split; [exact Hw|]. split; [exact Hmv|].
  split; [apply Hs3, Hs2, Hc1|]. split.
  - etrans; [exact Hs1|]. etrans; [exact Hs2|]. exact Hs3.
  - etrans; [exact Hm1|]. etrans; [exact Hm2|]. exact Hm3.
Qed.

(** ** Soundness of the knowledge base under truthful observations *)

(** The sentence built from an observation is true when the count is. *)
Lemma unclassified_true (board : gset cell) st c :
  sound board st →
  true_of board
    (Sentence.mk (unclassified st c)
       (nearby_mines (height st) (width st) board c
        - Z.of_nat (size (mine_neighbors st c)))).
Proof.
  intros [Hs Hm _]. unfold true_of. cbn [Sentence.cells Sentence.count].
  rewrite nearby_mines_spec.
  assert (neighbors (height st) (width st) c ∩ board =
          mine_neighbors st c ∪ (unclassified st c ∩ board)) as Heq.
  { apply set_eq. intros n. unfold mine_neighbors, unclassified.
    rewrite elem_of_union, !elem_of_intersection, !elem_of_filter.
    destruct (decide (n ∈ mines st)); set_solver. }
  rewrite Heq.
  rewrite (size_union (mine_neighbors st c) (unclassified st c ∩ board)).
  - lia.
  - unfold mine_neighbors, unclassified. clear. set_solver.
Qed.

Lemma pair_inferred_sound (set_iter : gset cell → list cell)
    (board : gset cell) A B :
  iter_ok set_iter → true_of board A → true_of board B →
  Forall (true_of board) (new_knowledge (pair_inferred set_iter A B)) ∧
  (∀ n, n ∈ cells_to_mark_as_safe (pair_inferred set_iter A B) → n ∉ board) ∧
  (∀ n, n ∈ cells_to_mark_as_mines (pair_inferred set_iter A B) → n ∈ board).
Proof.
  intros Hit HA HB.
  assert (∀ n : cell, n ∈ [] → n ∉ board) as Hnil1 by (intros n Hn; inversion Hn).
  assert (∀ n : cell, n ∈ [] → n ∈ board) as Hnil2 by (intros n Hn; inversion Hn).
  unfold pair_inferred, infer_pair.
  destruct (Sentence.eq A B); [simpl; auto|].
  case_decide as Hsub; [|simpl; auto].
  pose proof (true_of_difference board A B Hsub HA HB) as Hd.
  unfold true_of in Hd. cbn [Sentence.cells Sentence.count] in *.
  unfold Sentence.len. cbn [Sentence.cells Sentence.count].
  case_decide as Hzero; [|case_decide as Hfull]; simpl.
  - repeat split; auto. intros n Hn%(elem_of_set_iter _ _ _ Hit) Hb.
    assert (Sentence.cells B ∖ Sentence.cells A ## board) as Hdisj
      by (apply zero_count_all_safe; lia).
    set_solver.
  - repeat split; auto. intros n Hn%(elem_of_set_iter _ _ _ Hit).
    assert (Sentence.cells B ∖ Sentence.cells A ⊆ board) as Hall
      by (apply full_count_all_mines; lia).
    set_solver.
  - repeat split; auto.
Qed.

Lemma add_knowledge_sound (set_iter : gset cell → list cell)
    (board : gset cell) st c :
  iter_ok set_iter → sound board st → c ∉ board →
  returns (add_knowledge set_iter st c
             (nearby_mines (height st) (width st) board c))
          (λ st', sound board st' ∧
                  height st' = height st ∧ width st' = width st).
Proof.
  intros Hit Hsound Hc.
  pose proof (unclassified_true board st c Hsound) as Htrue.
  destruct Hsound as [Hs Hm Hkn].
  pose proof (observe_spec set_iter (true_of board) st c
                (nearby_mines (height st) (width st) board c)) as Hobs.
  cbv zeta in Hobs. unfold add_knowledge.
  revert Htrue Hobs.
  generalize (unclassified st c).
  generalize (nearby_mines (height st) (width st) board c
              - Z.of_nat (size (mine_neighbors st c))).
  intros k N Htrue Hobs.
  unfold true_of in Htrue. cbn [Sentence.cells Sentence.count] in Htrue.
  assert (Z.of_nat (size N) = k → N ⊆ board) as HN1
    by (intros; apply full_count_all_mines; lia).
  assert (k = 0 → N ## board) as HN0
    by (intros; apply zero_count_all_safe; lia).
  eapply returns_bind.
  { apply Hobs.
    - exact Hkn.
    - intros s. apply true_of_mark_safe, Hc.
    - intros Hfull n s Hn%(elem_of_set_iter _ _ _ Hit).
      apply true_of_mark_mine. apply (HN1 Hfull), Hn.
    - intros _ Hzero n s Hn%(elem_of_set_iter _ _ _ Hit).
      apply true_of_mark_safe. intros Hb.
      pose proof (HN0 Hzero) as Hd. rewrite elem_of_disjoint in Hd. eauto.
    - intros _ _. exact Htrue. }
  cbv beta. intros st1 (Hh1 & Hw1 & _ & Hkn1 & _ & Hmi1 & Hsa1).
  clear Hobs.
  assert (mines st1 ⊆ board ∧ safes st1 ## board) as [Hm1 Hs1].
  { rewrite Hmi1, Hsa1, !(list_to_set_iter _ _ Hit).
    destruct (decide (Z.of_nat (size N) = k)) as [Hfull|Hfull];
      [|destruct (decide (k = 0 ∧ 0 < Z.of_nat (size N))) as [[Hzero _]|Hzero]].
    - specialize (HN1 Hfull). clear -HN1 Hm Hs Hc. set_solver.
    - specialize (HN0 Hzero). clear -HN0 Hm Hs Hc. set_solver.
    - clear -Hm Hs Hc. set_solver. }
  assert (⋃ (Sentence.known_mines <$> knowledge st1) ⊆ board) as Hdm.
  { intros n (X & (s & -> & Hs')%list_elem_of_fmap & Hn)%elem_of_union_list.
    eapply known_mines_sound; [|exact Hn].
    eapply Forall_forall in Hkn1; eauto. }
  assert (⋃ (Sentence.known_safes <$> knowledge st1) ## board) as Hds.
  { apply elem_of_disjoint.
    intros n (X & (s & -> & Hs')%list_elem_of_fmap & Hn)%elem_of_union_list Hb.
    assert (Sentence.known_safes s ## board) as Hd
      by (apply known_safes_sound; eapply Forall_forall in Hkn1; eauto).
    rewrite elem_of_disjoint in Hd. eauto. }
  eapply returns_bind.
  { apply (propagate_spec set_iter (true_of board)).
    - exact Hkn1.
    - intros n s Hn%(elem_of_set_iter _ _ _ Hit). apply true_of_mark_mine. auto.
    - intros n s Hn%(elem_of_set_iter _ _ _ Hit). apply true_of_mark_safe.
      rewrite elem_of_disjoint in Hds. eauto. }
  cbv beta. intros st2 ((Hh2 & Hw2 & _) & Hkn2 & _ & Hmi2 & Hsa2).
  rewrite (list_to_set_iter _ _ Hit) in Hmi2.
  rewrite (list_to_set_iter _ _ Hit) in Hsa2.
  assert (mines st2 ⊆ board ∧ safes st2 ## board) as [Hm2 Hs2].
  { rewrite Hmi2, Hsa2. clear -Hdm Hds Hm1 Hs1. set_solver. }
  assert (∀ A B, A ∈ knowledge st2 → B ∈ knowledge st2 →
          Forall (true_of board) (new_knowledge (pair_inferred set_iter A B)) ∧
          (∀ n, n ∈ cells_to_mark_as_safe (pair_inferred set_iter A B) → n ∉ board) ∧
          (∀ n, n ∈ cells_to_mark_as_mines (pair_inferred set_iter A B) → n ∈ board))
    as Hpair.
  { intros A B HA HB. apply pair_inferred_sound; [exact Hit| |];
      eapply Forall_forall in Hkn2; eauto. }
  eapply returns_mono.
  { apply (resolve_spec set_iter (true_of board)).
    - exact Hkn2.
    - apply Forall_forall. intros s (A & B & HA & HB & Hs')%elem_of_new_knowledge.
      destruct (Hpair A B HA HB) as (Hnew & _ & _).
      eapply Forall_forall in Hnew; eauto.
    - intros n s (A & B & HA & HB & Hn)%elem_of_cells_to_mark_as_mines.
      apply true_of_mark_mine. destruct (Hpair A B HA HB) as (_ & _ & H'). auto.
    - intros n s (A & B & HA & HB & Hn)%elem_of_cells_to_mark_as_safe.
      apply true_of_mark_safe. destruct (Hpair A B HA HB) as (_ & H' & _). auto. }
  cbv beta. intros st3 ((Hh3 & Hw3 & _) & Hkn3 & _ & Hmi3 & Hsa3).
  split; [|split; congruence].
  constructor; [| |exact Hkn3].
  - rewrite Hsa3. apply elem_of_disjoint. intros n Hn Hb.
    apply elem_of_union in Hn as [Hn|Hn].
    + apply elem_of_list_to_set, elem_of_cells_to_mark_as_safe in Hn
        as (A & B & HA & HB & Hn).
      destruct (Hpair A B HA HB) as (_ & H' & _). exact (H' n Hn Hb).
    + rewrite elem_of_disjoint in Hs2. eauto.
  - rewrite Hmi3. intros n Hn.
    apply elem_of_union in Hn as [Hn|Hn]; [|auto].
    apply elem_of_list_to_set, elem_of_cells_to_mark_as_mines in Hn
      as (A & B & HA & HB & Hn).
    destruct (Hpair A B HA HB) as (_ & _ & H'). exact (H' n Hn).
Qed.

(** * The claims *)

(** Closed goals about concrete boards are settled by evaluation. *)
Ltac by_compute :=
  lazymatch goal with
  | |- ?G => let G' := eval cbv beta in G in change G'
  end;
  first [ vm_compute; reflexivity
        | let H := fresh in vm_compute; intros H; discriminate H ].

Ltac conj_by_compute :=
  repeat (lazymatch goal with |- _ ∧ _ => split; [by_compute|] end);
  by_compute.

(** Concrete runs from a fresh knowledge base. The calls are listed from
    the first to the last, and every call iterates its sets in the order
    of [elements]. *)
Ltac calls_rev obs :=
  lazymatch obs with
  | nil => apply reachable_init
  | cons (?c, ?count) ?obs' =>
      eapply (reachable_step _ _ elements _ c count);
      [calls_rev obs' | apply iter_ok_elements | by_compute]
  end.

Ltac calls obs := let r := eval cbv in (reverse obs) in calls_rev r.

(** The same for truthful play; only the probed cells are listed. *)
Ltac probes_rev cs :=
  lazymatch cs with
  | nil => apply truthful_init
  | cons ?c ?cs' =>
      eapply (truthful_step _ _ _ elements _ c);
      [probes_rev cs' | apply iter_ok_elements | by_compute | by_compute]
  end.

Ltac probes cs := let r := eval cbv in (reverse cs) in probes_rev r.

(** ** Sentence.mark_mine *)

(** C10. [Sentence.mark_mine] validates nothing and cannot fail: when the
    cell is in the sentence it is removed and the count goes down by exactly
    one, whatever the count was; from count 0 the result has count -1. *)
Theorem sentence_mark_mine_unchecked (s : Sentence.t) (c : cell) :
  c ∈ Sentence.cells s →
  Sentence.cells (Sentence.mark_mine s c) = Sentence.cells s ∖ {[c]} ∧
  Sentence.count (Sentence.mark_mine s c) = Sentence.count s - 1 ∧
  (Sentence.count s = 0 → Sentence.count (Sentence.mark_mine s c) = -1).
Proof.
  intros Hc. unfold Sentence.mark_mine.
  destruct (decide (c ∈ Sentence.cells s)) as [_|Hn]; [|contradiction].
  simpl. repeat split. intros ->. reflexivity.
Qed.

Lemma sentence_mark_mine_unchecked_witness :
  Sentence.mark_mine (Sentence.mk {[(0, 0)]} 0) (0, 0) = Sentence.mk ∅ (-1) ∧
  Sentence.count (Sentence.mark_mine (Sentence.mk {[(0, 0)]} 0) (0, 0)) = -1.
Proof.
  split; [vm_compute; reflexivity|].
  apply (sentence_mark_mine_unchecked (Sentence.mk {[(0, 0)]} 0) (0, 0)).
  - vm_compute. reflexivity.
  - reflexivity.
Defined.

(** ** Termination *)

(** C9. Every loop over [self.knowledge] that removes from the list while
    iterating exhausts its iterator within as many visits as the list is
    long on entry, and [add_knowledge] as a whole (one pass of steps 1-5)
    exits normally from every state, for every observation and every
    iteration order of the sets. *)
Theorem add_knowledge_terminates :
  (∀ upd kn, ∃ kn', for_sentence (length kn) upd 0 kn = Some kn' ∧
                    (length kn' ≤ length kn)%nat) ∧
  (∀ set_iter st c count, ∃ st', add_knowledge set_iter st c count = Some st').
Proof.
  split.
  - intros upd kn.
    destruct (for_sentence_returns (λ _, True) upd (length kn) 0 kn)
      as (kn' & Hrun & _ & Hlen); [lia | apply Forall_forall | ..]; eauto.
  - intros set_iter st c count.
    destruct (add_knowledge_frame set_iter st c count) as (st' & Hrun & _).
    eauto.
Qed.

(** ** Out-of-range cells *)

(** C8, as the code has it. [add_knowledge] has no bounds check: a cell
    outside the board is processed like any other; the call exits normally
    with the cell recorded in [moves_made] and in [safes]. *)
Theorem add_knowledge_out_of_range set_iter st c count :
  in_bounds (height st) (width st) c = false →
  ∃ st', add_knowledge set_iter st c count = Some st' ∧
         c ∈ moves_made st' ∧ c ∈ safes st'.
Proof.
  intros _.
  destruct (add_knowledge_frame set_iter st c count)
    as (st' & Hrun & _ & _ & Hmv & Hc & _).
  exists st'. rewrite Hmv. repeat split; auto. clear. set_solver.
Qed.

Lemma add_knowledge_out_of_range_witness :
  ∃ st', add_knowledge elements (init 3 3) (-1, 0) 0 = Some st' ∧
         (-1, 0) ∈ moves_made st' ∧ (-1, 0) ∈ safes st'.
Proof.
  apply (add_knowledge_out_of_range elements (init 3 3) (-1, 0) 0).
  vm_compute. reflexivity.
Defined.

(** C8, counterexample. On a fresh 3x3 board, [add_knowledge((-1, 0), 0)]
    is accepted: the cell enters [moves_made] and [safes], and its in-board
    neighbours (0,0) and (0,1) are marked safe as for any zero count. *)
Lemma out_of_range_accepted :
  in_bounds 3 3 (-1, 0) = false ∧
  ∃ st', add_knowledge elements (init 3 3) (-1, 0) 0 = Some st' ∧
         moves_made st' = {[(-1, 0)]} ∧
         safes st' = {[(-1, 0); (0, 0); (0, 1)]}.
Proof.
  split; [reflexivity|]. eexists. split; [vm_compute; reflexivity|].
  split; vm_compute; reflexivity.
Qed.

(** ** Repeated observations *)

(** C2, as the code has it. [add_knowledge] never looks at [moves_made]:
    a repeated observation runs the whole procedure again. The second call
    leaves [moves_made] as the first one left it, and [safes] and [mines]
    can only grow. *)
Theorem add_knowledge_twice set_iter st c count :
  ∃ st1 st2,
    add_knowledge set_iter st c count = Some st1 ∧
    add_knowledge set_iter st1 c count = Some st2 ∧
    moves_made st2 = moves_made st1 ∧
    safes st1 ⊆ safes st2 ∧ mines st1 ⊆ mines st2.
Proof.
  destruct (add_knowledge_frame set_iter st c count)
    as (st1 & Hrun1 & _ & _ & Hmv1 & _).
  destruct (add_knowledge_frame set_iter st1 c count)
    as (st2 & Hrun2 & _ & _ & Hmv2 & _ & Hsa & Hmi).
  exists st1, st2. repeat split; auto.
  rewrite Hmv2, Hmv1. clear. set_solver.
Qed.

(** C2, counterexample. (a) On a fresh 3x3 board, observing ((0,0), 1)
    twice stores the sentence {(0,1),(1,0),(1,1)} = 1 twice. (b) On a 1x6
    board, after ((0,4), 1) and ((0,2), 1), observing ((0,0), 1) once
    leaves [mines] = {(0,1)} and observing it again adds (0,5). (c) On a
    1x5 board, after ((0,3), 1) and ((0,1), 1), observing ((0,0), 0) once
    leaves (0,4) out of [safes] and observing it again adds it. *)
Lemma add_knowledge_not_idempotent :
  (∃ st1 st2,
     add_knowledge elements (init 3 3) (0, 0) 1 = Some st1 ∧
     add_knowledge elements st1 (0, 0) 1 = Some st2 ∧
     knowledge st1 = [Sentence.mk {[(0, 1); (1, 0); (1, 1)]} 1] ∧
     knowledge st2 = [Sentence.mk {[(0, 1); (1, 0); (1, 1)]} 1;
                      Sentence.mk {[(0, 1); (1, 0); (1, 1)]} 1]) ∧
  (∃ st st1 st2,
     reachable 1 6 st ∧
     add_knowledge elements st (0, 0) 1 = Some st1 ∧
     add_knowledge elements st1 (0, 0) 1 = Some st2 ∧
     mines st1 = {[(0, 1)]} ∧ mines st2 = {[(0, 1); (0, 5)]}) ∧
  (∃ st st1 st2,
     reachable 1 5 st ∧
     add_knowledge elements st (0, 0) 0 = Some st1 ∧
     add_knowledge elements st1 (0, 0) 0 = Some st2 ∧
     (0, 4) ∉ safes st1 ∧ (0, 4) ∈ safes st2).
Proof.
  split; [|split].
  - do 2 eexists. conj_by_compute.
  - do 3 eexists. split.
    { calls [((0, 4), 1); ((0, 2), 1)]. }
    conj_by_compute.
  - do 3 eexists. split.
    { calls [((0, 3), 1); ((0, 1), 1)]. }
    conj_by_compute.
Qed.

(** ** Zero-count and full-count observations *)

(** C5, as the code has it. If no neighbour of [c] is counted as a known
    mine (so that the count 0 is not lowered), then after
    [add_knowledge(c, 0)] every neighbour of [c] that was neither in
    [safes] nor in [mines] is in [safes]. *)
Theorem zero_count_propagation set_iter st c :
  iter_ok set_iter →
  mine_neighbors st c = ∅ →
  ∃ st', add_knowledge set_iter st c 0 = Some st' ∧
         unclassified st c ⊆ safes st'.
Proof.
  intros Hit Hnone.
  destruct (add_knowledge_phases set_iter st c 0)
    as (st1 & st2 & st3 & _ & _ & _ & Hak & _
        & _ & Hsa1 & _ & Hsa2 & _ & Hsa3).
  exists st3. split; [exact Hak|].
  intros n Hn. rewrite Hsa3, Hsa2. do 2 (apply elem_of_union; right).
  rewrite Hsa1, Hnone, size_empty.
  destruct (decide (Z.of_nat (size (unclassified st c)) = 0 - Z.of_nat 0))
    as [Hempty|Hne].
  - assert (unclassified st c ≡ ∅) as Heq by (apply size_empty_inv; lia).
    apply Heq in Hn. apply not_elem_of_empty in Hn. contradiction.
  - rewrite decide_True by lia. apply elem_of_union. left.
    apply elem_of_list_to_set, (elem_of_set_iter _ _ _ Hit), Hn.
Qed.

Lemma zero_count_propagation_witness :
  ∃ st', add_knowledge elements (init 3 3) (0, 0) 0 = Some st' ∧
         unclassified (init 3 3) (0, 0) ⊆ safes st'.
Proof.
  apply (zero_count_propagation elements (init 3 3) (0, 0)).
  - apply iter_ok_elements.
  - vm_compute. reflexivity.
Defined.

(** C5, counterexample. On a 1x4 board, after ((0,0), 1) has made (0,1) a
    known mine, [add_knowledge((0,2), 0)] lowers the count to -1 and stores
    {(0,3)} = -1: the unclassified neighbour (0,3) is not marked safe. *)
Lemma zero_count_not_propagated :
  ∃ st st',
    reachable 1 4 st ∧
    add_knowledge elements st (0, 2) 0 = Some st' ∧
    (0, 3) ∈ neighbors 1 4 (0, 2) ∧ (0, 3) ∉ safes st ∧ (0, 3) ∉ mines st ∧
    (0, 3) ∉ safes st' ∧
    knowledge st' = [Sentence.mk {[(0, 3)]} (-1)].
Proof.
  do 2 eexists. split.
  { calls [((0, 0), 1)]. }
  conj_by_compute.
Qed.

(** C6, as the code has it. If the count, lowered by one for each
    neighbour counted as a known mine, equals the number of unclassified
    neighbours of [c], then after [add_knowledge(c, count)] all of these are
    in [mines]. *)
Theorem full_count_propagation set_iter st c count :
  iter_ok set_iter →
  count - Z.of_nat (size (mine_neighbors st c))
    = Z.of_nat (size (unclassified st c)) →
  ∃ st', add_knowledge set_iter st c count = Some st' ∧
         unclassified st c ⊆ mines st'.
Proof.
  intros Hit Hfull.
  destruct (add_knowledge_phases set_iter st c count)
    as (st1 & st2 & st3 & _ & _ & _ & Hak & _
        & Hmi1 & _ & Hmi2 & _ & Hmi3 & _).
  exists st3. split; [exact Hak|].
  intros n Hn. rewrite Hmi3, Hmi2, Hmi1. rewrite decide_True by lia.
  do 2 (apply elem_of_union; right). apply elem_of_union. left.
  apply elem_of_list_to_set, (elem_of_set_iter _ _ _ Hit), Hn.
Qed.

Lemma full_count_propagation_witness :
  ∃ st', add_knowledge elements (init 1 4) (0, 0) 1 = Some st' ∧
         unclassified (init 1 4) (0, 0) ⊆ mines st'.
Proof.
  apply (full_count_propagation elements (init 1 4) (0, 0) 1).
  - apply iter_ok_elements.
  - vm_compute. reflexivity.
Defined.

(** C6, counterexample. On a 1x4 board with its single mine at (0,1),
    after the truthful ((0,0), 1), the cell (0,2) has exactly one
    unclassified neighbour, (0,3). The truthful [add_knowledge((0,2), 1)]
    lowers the count to 0 for the known mine (0,1) and marks (0,3) safe:
    it does not end in [mines]. *)
Lemma full_count_not_propagated :
  ∃ st st',
    reachable_truthful {[(0, 1)]} 1 4 st ∧
    add_knowledge elements st (0, 2) 1 = Some st' ∧
    nearby_mines 1 4 {[(0, 1)]} (0, 2) = 1 ∧
    unclassified st (0, 2) = {[(0, 3)]} ∧
    (0, 3) ∉ mines st' ∧ (0, 3) ∈ safes st'.
Proof.
  do 2 eexists. split.
  { probes [(0, 0)]. }
  conj_by_compute.
Qed.

(** ** Subset resolution *)

(** What an ordered pair [(A, B)] with [A != B] and [A.cells <= B.cells]
    contributes: no test against the stored sentences is involved. *)
Lemma pair_inferred_subset (set_iter : gset cell → list cell) A B :
  Sentence.eq A B = false → Sentence.cells A ⊆ Sentence.cells B →
  pair_inferred set_iter A B =
  if decide (Sentence.count (candidate A B) = 0)
  then mk_inferred [] (set_iter (Sentence.cells (candidate A B))) []
  else if decide (Sentence.count (candidate A B)
                  = Sentence.len (candidate A B))
       then mk_inferred [] [] (set_iter (Sentence.cells (candidate A B)))
       else mk_inferred [candidate A B] [] [].
Proof.
  intros Hne Hsub. unfold pair_inferred, infer_pair. rewrite Hne.
  rewrite decide_True by exact Hsub. fold (candidate A B).
  repeat case_decide; reflexivity.
Qed.

(** C7, as the code has it. A candidate derived from stored [A] and [B]
    ([A != B], [A.cells <= B.cells]) that is neither all-safe (count 0) nor
    all-mine (count = size) is always put on [new_knowledge], whether or not
    an equal sentence is stored; [self.knowledge.extend(new_knowledge)]
    then appends the whole of it, so that when step 5 has no cell to mark
    the resulting list is the old one followed by [new_knowledge]. *)
Theorem subset_candidate_appended set_iter st A B :
  A ∈ knowledge st → B ∈ knowledge st →
  Sentence.eq A B = false → Sentence.cells A ⊆ Sentence.cells B →
  Sentence.count (candidate A B) ≠ 0 →
  Sentence.count (candidate A B) ≠ Sentence.len (candidate A B) →
  candidate A B ∈ new_knowledge (infer set_iter (knowledge st)) ∧
  (cells_to_mark_as_mines (infer set_iter (knowledge st)) = [] →
   cells_to_mark_as_safe (infer set_iter (knowledge st)) = [] →
   resolve set_iter st =
   Some (set_knowledge st
           (knowledge st ++ new_knowledge (infer set_iter (knowledge st))))).
Proof.
  intros HA HB Hne Hsub Hnz Hnf. split.
  - apply elem_of_new_knowledge. exists A, B. repeat split; auto.
    rewrite pair_inferred_subset by assumption.
    rewrite !decide_False by assumption. simpl. left.
  - intros Hm Hs. unfold resolve. rewrite Hm, Hs. reflexivity.
Qed.

Lemma subset_candidate_appended_witness :
  candidate (Sentence.mk {[(1, 0); (1, 1)]} 1)
            (Sentence.mk {[(0, 2); (1, 0); (1, 1); (1, 2)]} 2)
  ∈ new_knowledge
      (infer elements [Sentence.mk {[(1, 0); (1, 1)]} 1;
                       Sentence.mk {[(0, 2); (1, 0); (1, 1); (1, 2)]} 2;
                       Sentence.mk {[(0, 2); (1, 2)]} 1]).
Proof.
  apply (subset_candidate_appended elements
    (mk 2 6 ∅ ∅ ∅ [Sentence.mk {[(1, 0); (1, 1)]} 1;
                   Sentence.mk {[(0, 2); (1, 0); (1, 1); (1, 2)]} 2;
                   Sentence.mk {[(0, 2); (1, 2)]} 1])
    (Sentence.mk {[(1, 0); (1, 1)]} 1)
    (Sentence.mk {[(0, 2); (1, 0); (1, 1); (1, 2)]} 2)).
  - left.
  - right. left.
  - by_compute.
  - apply (bool_decide_unpack _). vm_compute. exact I.
  - by_compute.
  - by_compute.
Defined.

(** C7, counterexample. On a 2x6 board, ((0,0), 1) and ((0,1), 2) leave
    A = {(1,0),(1,1)} = 1, B = {(0,2),(1,0),(1,1),(1,2)} = 2 and the
    candidate C = {(0,2),(1,2)} = 1 derived from them. The next call,
    ((0,5), 1), stores E = {(0,4),(1,4),(1,5)} = 1, derives C from (A, B)
    again and A from (C, B), and appends both although equal sentences are
    stored: the list ends as [A; B; C; E; C; A]. *)
Lemma subset_candidate_duplicated :
  ∃ st st',
    reachable 2 6 st ∧
    knowledge st = [Sentence.mk {[(1, 0); (1, 1)]} 1;
                    Sentence.mk {[(0, 2); (1, 0); (1, 1); (1, 2)]} 2;
                    Sentence.mk {[(0, 2); (1, 2)]} 1] ∧
    candidate (Sentence.mk {[(1, 0); (1, 1)]} 1)
              (Sentence.mk {[(0, 2); (1, 0); (1, 1); (1, 2)]} 2)
      = Sentence.mk {[(0, 2); (1, 2)]} 1 ∧
    add_knowledge elements st (0, 5) 1 = Some st' ∧
    knowledge st' = [Sentence.mk {[(1, 0); (1, 1)]} 1;
                     Sentence.mk {[(0, 2); (1, 0); (1, 1); (1, 2)]} 2;
                     Sentence.mk {[(0, 2); (1, 2)]} 1;
                     Sentence.mk {[(0, 4); (1, 4); (1, 5)]} 1;
                     Sentence.mk {[(0, 2); (1, 2)]} 1;
                     Sentence.mk {[(1, 0); (1, 1)]} 1].
Proof.
  do 2 eexists. split.
  { calls [((0, 0), 1); ((0, 1), 2)]. }
  conj_by_compute.
Qed.

(** ** One pass, not a fixed point *)

(** C1, as the code has it. [add_knowledge] is steps 1-3 followed by one
    run of step 4 and one run of step 5. On return, what the sentences
    stored at the start of step 4 made known is recorded, and so are the
    cells of every all-safe or all-mine candidate that subset resolution
    derives from the sentences stored at the start of step 5. (Nothing is
    promised about what the sentences stored on return make known.) *)
Theorem add_knowledge_one_pass set_iter st c count :
  iter_ok set_iter →
  ∃ st1 st2 st3,
    observe set_iter st c count = Some st1 ∧
    propagate set_iter st1 = Some st2 ∧
    resolve set_iter st2 = Some st3 ∧
    add_knowledge set_iter st c count = Some st3 ∧
    (∀ s, s ∈ knowledge st1 →
          Sentence.known_mines s ⊆ mines st3 ∧
          Sentence.known_safes s ⊆ safes st3) ∧
    (∀ A B, A ∈ knowledge st2 → B ∈ knowledge st2 →
            Sentence.eq A B = false →
            Sentence.cells A ⊆ Sentence.cells B →
            (Sentence.count (candidate A B) = 0 →
             Sentence.cells (candidate A B) ⊆ safes st3) ∧
            (Sentence.count (candidate A B) ≠ 0 →
             Sentence.count (candidate A B) = Sentence.len (candidate A B) →
             Sentence.cells (candidate A B) ⊆ mines st3)).
Proof.
  intros Hit.
  destruct (add_knowledge_phases set_iter st c count)
    as (st1 & st2 & st3 & H1 & H2 & H3 & Hak & _
        & _ & _ & Hmi2 & Hsa2 & Hmi3 & Hsa3).
  exists st1, st2, st3. repeat split; auto.
  - rewrite Hmi3, Hmi2, (list_to_set_iter _ _ Hit).
    intros n Hn. apply elem_of_union. right. apply elem_of_union. left.
    apply elem_of_union_list. exists (Sentence.known_mines s).
    split; [|exact Hn]. apply list_elem_of_fmap. eauto.
  - rewrite Hsa3, Hsa2, (list_to_set_iter _ _ Hit).
    intros n Hn. apply elem_of_union. right. apply elem_of_union. left.
    apply elem_of_union_list. exists (Sentence.known_safes s).
    split; [|exact Hn]. apply list_elem_of_fmap. eauto.
  - intros Hzero n Hn. rewrite Hsa3. apply elem_of_union. left.
    apply elem_of_list_to_set, elem_of_cells_to_mark_as_safe.
    exists A, B. repeat split; auto.
    rewrite pair_inferred_subset by assumption.
    rewrite decide_True by assumption. simpl.
    apply (elem_of_set_iter _ _ _ Hit), Hn.
  - intros Hnz Hfull n Hn. rewrite Hmi3. apply elem_of_union. left.
    apply elem_of_list_to_set, elem_of_cells_to_mark_as_mines.
    exists A, B. repeat split; auto.
    rewrite pair_inferred_subset by assumption.
    rewrite decide_False by assumption.
    rewrite decide_True by assumption. simpl.
    apply (elem_of_set_iter _ _ _ Hit), Hn.
Qed.

(** On a 1x7 board with mines at (0,2) and (0,6), after the truthful
    observations ((0,3), 1), ((0,5), 1), ((0,1), 1), the call
    [add_knowledge((0,0), 0)] marks a cell in each of the two steps. Its
    step 2 turns the stored {(0,0),(0,2)} = 1 into {(0,2)} = 1, step 4
    finds it and marks (0,2) a mine, which leaves {(0,4)} = 0 and
    {(0,4),(0,6)} = 1 stored; step 5 derives {(0,6)} = 1 from this pair and
    marks (0,6) a mine. *)
Lemma add_knowledge_one_pass_witness :
  ∃ st st1 st2 st3,
    reachable_truthful {[(0, 2); (0, 6)]} 1 7 st ∧ mines st = ∅ ∧
    observe elements st (0, 0) 0 = Some st1 ∧
    propagate elements st1 = Some st2 ∧
    resolve elements st2 = Some st3 ∧
    add_knowledge elements st (0, 0) 0 = Some st3 ∧
    knowledge st1 = [Sentence.mk {[(0, 2); (0, 4)]} 1;
                     Sentence.mk {[(0, 4); (0, 6)]} 1;
                     Sentence.mk {[(0, 2)]} 1] ∧
    mines st1 = ∅ ∧
    knowledge st2 = [Sentence.mk {[(0, 4)]} 0;
                     Sentence.mk {[(0, 4); (0, 6)]} 1] ∧
    mines st2 = {[(0, 2)]} ∧
    (0, 2) ∈ mines st3 ∧ (0, 6) ∈ mines st3.
Proof.
  pose (st := mk 1 7 {[(0, 3); (0, 5); (0, 1)]} ∅ {[(0, 3); (0, 5); (0, 1)]}
                 [Sentence.mk {[(0, 2); (0, 4)]} 1;
                  Sentence.mk {[(0, 4); (0, 6)]} 1;
                  Sentence.mk {[(0, 0); (0, 2)]} 1]).
  pose (st1 := mk 1 7 {[(0, 3); (0, 5); (0, 1); (0, 0)]} ∅
                  {[(0, 3); (0, 5); (0, 1); (0, 0)]}
                  [Sentence.mk {[(0, 2); (0, 4)]} 1;
                   Sentence.mk {[(0, 4); (0, 6)]} 1;
                   Sentence.mk {[(0, 2)]} 1]).
  pose (st2 := mk 1 7 {[(0, 3); (0, 5); (0, 1); (0, 0)]} {[(0, 2)]}
                  {[(0, 3); (0, 5); (0, 1); (0, 0)]}
                  [Sentence.mk {[(0, 4)]} 0;
                   Sentence.mk {[(0, 4); (0, 6)]} 1]).
  assert (reachable_truthful {[(0, 2); (0, 6)]} 1 7 st) as Hreach
    by (subst st; probes [(0, 3); (0, 5); (0, 1)]).
  assert (observe elements st (0, 0) 0 = Some st1) as E1
    by (subst st st1; by_compute).
  assert (propagate elements st1 = Some st2) as E2
    by (subst st1 st2; by_compute).
  destruct (add_knowledge_one_pass elements st (0, 0) 0 iter_ok_elements)
    as (st1' & st2' & st3 & H1 & H2 & H3 & H4 & Hdirect & Hpair).
  rewrite E1 in H1. injection H1 as <-.
  rewrite E2 in H2. injection H2 as <-.
  exists st, st1, st2, st3.
  split; [exact Hreach|]. split; [reflexivity|].
  split; [exact E1|]. split; [exact E2|]. split; [exact H3|].
  split; [exact H4|]. split; [reflexivity|]. split; [reflexivity|].
  split; [reflexivity|]. split; [reflexivity|]. split.
  - apply (proj1 (Hdirect (Sentence.mk {[(0, 2)]} 1)
                    ltac:(right; right; left))).
    by_compute.
  - apply (proj2 (Hpair (Sentence.mk {[(0, 4)]} 0)
                    (Sentence.mk {[(0, 4); (0, 6)]} 1)
                    ltac:(left) ltac:(right; left)
                    ltac:(by_compute)
                    ltac:(apply (bool_decide_unpack _); vm_compute; exact I))).
    + by_compute.
    + by_compute.
    + by_compute.
Defined.

(** C1, counterexample. On a 1x5 board with its single mine at (0,2), the
    truthful observations ((0,3), 1), ((0,1), 1), ((0,0), 0): the last call
    finds {(0,2)} = 1 in step 4 and marks (0,2) a mine, which turns the
    stored {(0,2),(0,4)} = 1 into {(0,4)} = 0 after step 4 has finished
    collecting. The call returns with {(0,4)} = 0 stored and (0,4) not in
    [safes]: direct propagation has a new safe cell to mark. *)
Lemma one_pass_not_saturated :
  ∃ st st',
    reachable_truthful {[(0, 2)]} 1 5 st ∧
    (0, 0) ∉ ({[(0, 2)]} : gset cell) ∧
    add_knowledge elements st (0, 0) (nearby_mines 1 5 {[(0, 2)]} (0, 0))
      = Some st' ∧
    knowledge st' = [Sentence.mk {[(0, 4)]} 0] ∧
    (0, 4) ∈ Sentence.known_safes (Sentence.mk {[(0, 4)]} 0) ∧
    (0, 4) ∉ safes st' ∧
    ¬ saturated st'.
Proof.
  do 2 eexists. split.
  { probes [(0, 3); (0, 1)]. }
  do 5 (split; [by_compute|]).
  intros [Hdirect _].
  destruct (Hdirect (Sentence.mk {[(0, 4)]} 0)) as [_ Hsafe]; [left|].
  specialize (Hsafe (0, 4)). revert Hsafe. vm_compute.
  intros Hsafe. specialize (Hsafe eq_refl). discriminate Hsafe.
Qed.

(** ** Purging classified cells from the stored sentences *)

(** C3, the code at the failing input. With [S1; S2] stored,
    S1 = {(0,2)} = 1 and S2 = {(0,2),(0,4)} = 1, [mark_mine((0,2))] empties
    S1 and removes it, the iterator then skips S2: the call returns with S2
    stored unchanged, still containing the mine (0,2). The state is
    reached on a 1x5 board with its single mine at (0,2) by the truthful
    observations ((0,1), 1), ((0,3), 1), ((0,0), 0). *)
Theorem mark_mine_skips_sentence :
  (∃ st', mark_mine (mk 1 5 ∅ ∅ ∅ [Sentence.mk {[(0, 2)]} 1;
                                   Sentence.mk {[(0, 2); (0, 4)]} 1]) (0, 2)
          = Some st' ∧
          knowledge st' = [Sentence.mk {[(0, 2); (0, 4)]} 1] ∧
          (0, 2) ∈ mines st') ∧
  (∃ st, reachable_truthful {[(0, 2)]} 1 5 st ∧
         knowledge st = [Sentence.mk {[(0, 2); (0, 4)]} 1] ∧
         (0, 2) ∈ mines st).
Proof.
  split.
  - eexists. conj_by_compute.
  - eexists. split.
    { probes [(0, 1); (0, 3); (0, 0)]. }
    conj_by_compute.
Qed.

(** ** Soundness *)

(** Truthful play is play with true counts, which is play. *)
Lemma truthful_counts (board : gset cell) (h w : Z) st :
  reachable_truthful board h w st → reachable_counts board h w st.
Proof.
  induction 1 as [|set_iter st c st' _ IH Hit _ Hrun];
    [apply counts_init | eapply counts_step; eauto].
Qed.

Lemma counts_reachable (board : gset cell) (h w : Z) st :
  reachable_counts board h w st → reachable h w st.
Proof.
  induction 1 as [|set_iter st c st' _ IH Hit Hrun];
    [apply reachable_init | eapply reachable_step; eauto].
Qed.

Lemma reachable_truthful_sound (board : gset cell) (h w : Z) st :
  reachable_truthful board h w st →
  sound board st ∧ height st = h ∧ width st = w.
Proof.
  induction 1
    as [|set_iter st c st' Hreach (Hsound & Hh & Hw) Hit Hc Hrun].
  - split; [|split; reflexivity].
    constructor; cbn [init safes mines knowledge];
      [clear; set_solver | clear; set_solver | constructor].
  - rewrite <- Hh, <- Hw in Hrun.
    destruct (add_knowledge_sound set_iter board st c Hit Hsound Hc)
      as (st'' & Hrun' & Hsound' & Hh' & Hw').
    rewrite Hrun in Hrun'. injection Hrun' as <-.
    split; [exact Hsound'|]. split; congruence.
Qed.

(** C4, as the code has it. In every state reached from a fresh knowledge
    base by calls that each report, for a cell that is not a mine of one
    fixed placement, its true number of neighbouring mines, [safes] and
    [mines] are disjoint, whatever order each call iterates its sets in. *)
Theorem safes_mines_disjoint (board : gset cell) (h w : Z) st :
  reachable_truthful board h w st →
  safes st ## mines st.
Proof.
  intros Hreach.
  destruct (reachable_truthful_sound board h w st Hreach) as ([Hs Hm _] & _).
  clear -Hs Hm. set_solver.
Qed.

Lemma safes_mines_disjoint_witness :
  ∃ st, reachable_truthful {[(0, 2)]} 1 5 st ∧
        mines st = {[(0, 2)]} ∧ safes st ## mines st.
Proof.
  assert (∃ st, reachable_truthful {[(0, 2)]} 1 5 st ∧
                mines st = {[(0, 2)]}) as (st & Hreach & Hmines).
  { eexists. split.
    - probes [(0, 3); (0, 1); (0, 0)].
    - by_compute. }
  exists st. split; [exact Hreach|]. split; [exact Hmines|].
  exact (safes_mines_disjoint {[(0, 2)]} 1 5 st Hreach).
Defined.

(** C4, counterexample. True counts alone are not enough. On a 1x2 board
    with its single mine at (0,1), [add_knowledge((0,0), 1)] marks (0,1) a
    mine; [add_knowledge((0,1), 0)] then reports the true count of the mine
    cell itself, and step 2 marks (0,1) safe: the cell is in both sets. *)
Lemma true_counts_not_disjoint :
  ∃ st,
    reachable_counts {[(0, 1)]} 1 2 st ∧
    nearby_mines 1 2 {[(0, 1)]} (0, 0) = 1 ∧
    nearby_mines 1 2 {[(0, 1)]} (0, 1) = 0 ∧
    (0, 1) ∈ safes st ∧ (0, 1) ∈ mines st ∧
    ¬ safes st ## mines st.
Proof.
  eexists. split.
  { eapply (counts_step _ _ _ elements _ (0, 1));
      [eapply (counts_step _ _ _ elements _ (0, 0));
         [apply counts_init | apply iter_ok_elements | by_compute]
      | apply iter_ok_elements | by_compute]. }
  do 4 (split; [by_compute|]).
  intros Hdisj. apply (Hdisj (0, 1)); by_compute.
Qed.

(** * Further properties *)

(** ** Sentences *)

(** X1. The two direct inferences of a sentence never contradict each
    other: [known_mines()] and [known_safes()] are disjoint subsets of the
    sentence's cells (both conditions can hold only for the empty sentence
    with count 0, which makes nothing known). *)
Theorem known_mines_safes_disjoint (s : Sentence.t) :
  Sentence.known_mines s ## Sentence.known_safes s ∧
  Sentence.known_mines s ⊆ Sentence.cells s ∧
  Sentence.known_safes s ⊆ Sentence.cells s.
Proof.
  unfold Sentence.known_mines, Sentence.known_safes, Sentence.len.
  destruct (decide (Z.of_nat (size (Sentence.cells s)) = Sentence.count s))
    as [Hfull|Hfull];
    destruct (decide (Sentence.count s = 0)) as [Hzero|Hzero];
    try (clear; set_solver).
  assert (Sentence.cells s ≡ ∅) as Hempty by (apply size_empty_inv; lia).
  clear -Hempty. set_solver.
Qed.

(** X2. Marking is idempotent and order-independent on a sentence: marking
    the same cell a second time changes nothing (in particular
    [mark_mine] lowers the count once only), and marks of two different
    cells commute, whether as mines or as safe cells. *)
Theorem sentence_marks_commute (s : Sentence.t) (a b : cell) :
  Sentence.mark_mine (Sentence.mark_mine s a) a = Sentence.mark_mine s a ∧
  Sentence.mark_safe (Sentence.mark_safe s a) a = Sentence.mark_safe s a ∧
  (a ≠ b →
   Sentence.mark_mine (Sentence.mark_mine s a) b
     = Sentence.mark_mine (Sentence.mark_mine s b) a ∧
   Sentence.mark_safe (Sentence.mark_safe s a) b
     = Sentence.mark_safe (Sentence.mark_safe s b) a ∧
   Sentence.mark_safe (Sentence.mark_mine s a) b
     = Sentence.mark_mine (Sentence.mark_safe s b) a).
Proof.
  destruct s as [X k]. unfold Sentence.mark_mine, Sentence.mark_safe.
  cbn [Sentence.cells Sentence.count].
  split; [|split].
  - destruct (decide (a ∈ X)); cbn [Sentence.cells Sentence.count];
      [rewrite decide_False by (clear; set_solver)
      |rewrite decide_False by assumption]; reflexivity.
  - destruct (decide (a ∈ X)); cbn [Sentence.cells Sentence.count];
      [rewrite decide_False by (clear; set_solver)
      |rewrite decide_False by assumption]; reflexivity.
  - intros Hab.
    assert (∀ Y : gset cell, b ∈ Y ∖ {[a]} ↔ b ∈ Y) as Hb
      by (intros Y; clear -Hab; set_solver).
    assert (∀ Y : gset cell, a ∈ Y ∖ {[b]} ↔ a ∈ Y) as Ha
      by (intros Y; clear -Hab; set_solver).
    assert (X ∖ {[a]} ∖ {[b]} = X ∖ {[b]} ∖ {[a]}) as Hcomm
      by (clear; set_solver).
    destruct (decide (a ∈ X)) as [HaX|HaX]; destruct (decide (b ∈ X)) as [HbX|HbX];
      cbn [Sentence.cells Sentence.count];
      repeat first
        [ rewrite (decide_True (P := b ∈ X ∖ {[a]})) by (apply Hb; assumption)
        | rewrite (decide_False (P := b ∈ X ∖ {[a]})) by (rewrite Hb; assumption)
        | rewrite (decide_True (P := a ∈ X ∖ {[b]})) by (apply Ha; assumption)
        | rewrite (decide_False (P := a ∈ X ∖ {[b]})) by (rewrite Ha; assumption)
        | rewrite (decide_True (P := a ∈ X)) by assumption
        | rewrite (decide_False (P := a ∈ X)) by assumption
        | rewrite (decide_True (P := b ∈ X)) by assumption
        | rewrite (decide_False (P := b ∈ X)) by assumption ];
      cbn [Sentence.cells Sentence.count];
      rewrite ?Hcomm; repeat split; f_equal; lia.
Qed.


(** X3. A sentence that is true of a mine placement has its count between
    0 and the number of its cells, makes only true direct inferences
    ([known_mines()] are mines, [known_safes()] are not), and stays true
    when a real mine is marked as a mine or a cell without mine as safe. *)
Theorem true_sentence_inferences (board : gset cell) (s : Sentence.t) :
  true_of board s →
  (0 ≤ Sentence.count s ≤ Sentence.len s) ∧
  Sentence.known_mines s ⊆ board ∧
  Sentence.known_safes s ## board ∧
  (∀ c, c ∈ board → true_of board (Sentence.mark_mine s c)) ∧
  (∀ c, c ∉ board → true_of board (Sentence.mark_safe s c)).
Proof.
  intros Htrue. split; [|split; [|split; [|split]]].
  - unfold true_of in Htrue. unfold Sentence.len.
    assert (size (Sentence.cells s ∩ board) ≤ size (Sentence.cells s))%nat
      by (apply subseteq_size; clear; set_solver).
    lia.
  - apply known_mines_sound, Htrue.
  - apply known_safes_sound, Htrue.
  - intros c Hc. apply true_of_mark_mine; assumption.
  - intros c Hc. apply true_of_mark_safe; assumption.
Qed.

Lemma true_sentence_inferences_witness :
  Sentence.known_mines (Sentence.mk {[(0, 1); (0, 2)]} 2) ⊆ {[(0, 1); (0, 2)]} ∧
  true_of {[(0, 1); (0, 2)]}
          (Sentence.mark_mine (Sentence.mk {[(0, 1); (0, 2)]} 2) (0, 1)).
Proof.
  destruct (true_sentence_inferences {[(0, 1); (0, 2)]}
              (Sentence.mk {[(0, 1); (0, 2)]} 2))
    as (_ & Hmines & _ & Hmark & _).
  - vm_compute. reflexivity.
  - split; [exact Hmines|]. apply Hmark. vm_compute. reflexivity.
Defined.

(** ** Marking a cell in the knowledge base *)

Lemma mark_mine_idem s c :
  Sentence.mark_mine (Sentence.mark_mine s c) c = Sentence.mark_mine s c.
Proof.
  unfold Sentence.mark_mine.
  destruct (decide (c ∈ Sentence.cells s)); cbn [Sentence.cells Sentence.count];
    [rewrite decide_False by (clear; set_solver)
    |rewrite decide_False by assumption]; reflexivity.
Qed.

Lemma mark_safe_idem s c :
  Sentence.mark_safe (Sentence.mark_safe s c) c = Sentence.mark_safe s c.
Proof.
  unfold Sentence.mark_safe.
  destruct (decide (c ∈ Sentence.cells s)); cbn [Sentence.cells Sentence.count];
    [rewrite decide_False by (clear; set_solver)
    |rewrite decide_False by assumption]; reflexivity.
Qed.

Lemma singleton_remainder (X : gset cell) (c : cell) :
  X ∖ {[c]} ≡ ∅ → X ⊆ {[c]}.
Proof.
  intros He x Hx. destruct (decide (x = c)) as [->|Hxc].
  - apply elem_of_singleton. reflexivity.
  - exfalso. apply (not_elem_of_empty (C:=gset cell) x). apply He.
    apply elem_of_difference. split; [exact Hx|].
    rewrite elem_of_singleton. exact Hxc.
Qed.

(** The loop over [self.knowledge] when no visited sentence ends up empty:
    nothing is removed, nothing is skipped. *)
Lemma for_sentence_no_removal upd (todo : list Sentence.t) :
  ∀ (done : list Sentence.t) (fuel : nat),
  (∀ s, s ∈ todo → Sentence.len (upd s) ≠ 0) →
  (length todo ≤ fuel)%nat →
  for_sentence fuel upd (length done) (done ++ todo)
  = Some (done ++ (upd <$> todo)).
Proof.
  induction todo as [|s todo IH]; intros done fuel Hne Hfuel.
  - destruct fuel; simpl; unfold visit;
      rewrite lookup_ge_None_2 by (rewrite length_app; simpl; lia);
      reflexivity.
  - destruct fuel as [|fuel]; [simpl in Hfuel; lia|].
    simpl. unfold visit. rewrite list_lookup_middle by reflexivity.
    cbn [mbind option_bind].
    rewrite decide_False by (apply Hne; left).
    replace (<[length done := upd s]> (done ++ s :: todo))
      with ((done ++ [upd s]) ++ todo).
    2:{ rewrite <- (assoc_L (++)). simpl.
        rewrite insert_app_r_alt by lia.
        rewrite Nat.sub_diag. reflexivity. }
    replace (S (length done)) with (length (done ++ [upd s]))
      by (rewrite length_app; simpl; lia).
    rewrite IH.
    + rewrite <- (assoc_L (++)). reflexivity.
    + intros s' Hs'. apply Hne. right. exact Hs'.
    + simpl in Hfuel. lia.
Qed.

(** X4. [MinesweeperAI.mark_mine] always returns. It adds the cell to
    [mines] and leaves [safes], [moves_made] and the dimensions alone; the
    list of sentences never gets longer, and every sentence stored afterwards
    is a sentence stored before, either untouched or with the cell marked
    as a mine. *)
Theorem mark_mine_effect st c :
  ∃ st', mark_mine st c = Some st' ∧
    mines st' = {[c]} ∪ mines st ∧ safes st' = safes st ∧
    moves_made st' = moves_made st ∧
    height st' = height st ∧ width st' = width st ∧
    (length (knowledge st') ≤ length (knowledge st))%nat ∧
    ∀ s', s' ∈ knowledge st' →
          ∃ s, s ∈ knowledge st ∧ (s' = s ∨ s' = Sentence.mark_mine s c).
Proof.
  destruct (mark_mine_spec
              (λ s', ∃ s, s ∈ knowledge st ∧
                          (s' = s ∨ s' = Sentence.mark_mine s c)) st c)
    as (st' & Hrun & (Hh & Hw & Hmv) & Hmi & Hsa & Hkn & Hlen).
  - apply Forall_forall. intros s Hs. exists s. auto.
  - intros s' (s & Hs & [->| ->]); exists s; split; auto.
    right. apply mark_mine_idem.
  - exists st'. repeat (split; [assumption|]).
    intros s' Hs'. eapply Forall_forall in Hkn; eauto.
Qed.

(** X5. When marking the cell empties no stored sentence (each of them
    has a cell other than [c]), [MinesweeperAI.mark_mine] updates every
    sentence in place: the new list is the old one with
    [Sentence.mark_mine] applied to each element, and no stored sentence
    contains the cell any more. *)
Theorem mark_mine_updates_all st c :
  (∀ s, s ∈ knowledge st → ¬ (Sentence.cells s ⊆ {[c]})) →
  ∃ st', mark_mine st c = Some st' ∧
    knowledge st' = (λ s, Sentence.mark_mine s c) <$> knowledge st ∧
    ∀ s', s' ∈ knowledge st' → c ∉ Sentence.cells s'.
Proof.
  intros Hne.
  assert (∀ s, s ∈ knowledge st →
               Sentence.len (Sentence.mark_mine s c) ≠ 0) as Hlen.
  { intros s Hs Hz. apply (Hne s Hs).
    unfold Sentence.len in Hz.
    assert (Sentence.cells (Sentence.mark_mine s c) ≡ ∅) as He
      by (apply size_empty_inv; lia).
    unfold Sentence.mark_mine in He.
    destruct (decide (c ∈ Sentence.cells s)); cbn [Sentence.cells] in He;
      [apply singleton_remainder; exact He | clear -He; set_solver]. }
  unfold mark_mine. cbn [knowledge].
  pose proof (for_sentence_no_removal (λ s, Sentence.mark_mine s c)
                (knowledge st) [] (length (knowledge st)) Hlen (le_n _)) as Hrun.
  cbn [length app] in Hrun. rewrite Hrun. cbn [mbind option_bind].
  eexists. split; [reflexivity|]. cbn [set_knowledge knowledge].
  split; [reflexivity|].
  intros s' (s & -> & _)%list_elem_of_fmap. unfold Sentence.mark_mine.
  case_decide; cbn [Sentence.cells]; [clear; set_solver | assumption].
Qed.

Lemma mark_mine_updates_all_witness :
  ∃ st', mark_mine (mk 1 5 ∅ ∅ ∅ [Sentence.mk {[(0, 2); (0, 3)]} 1;
                                  Sentence.mk {[(0, 2); (0, 4)]} 1]) (0, 2)
         = Some st' ∧
         knowledge st' = [Sentence.mk {[(0, 3)]} 0; Sentence.mk {[(0, 4)]} 0].
Proof.
  destruct (mark_mine_updates_all
              (mk 1 5 ∅ ∅ ∅ [Sentence.mk {[(0, 2); (0, 3)]} 1;
                             Sentence.mk {[(0, 2); (0, 4)]} 1]) (0, 2))
    as (st' & Hrun & Hkn & _).
  - intros s Hs Hsub. cbn [knowledge] in Hs.
    apply elem_of_cons in Hs as [->|Hs];
      [|apply elem_of_cons in Hs as [->|Hs]; [|inversion Hs]];
      cbn [Sentence.cells] in Hsub.
    + specialize (Hsub (0, 3)). revert Hsub. vm_compute.
      intros Hsub. specialize (Hsub eq_refl). discriminate Hsub.
    + specialize (Hsub (0, 4)). revert Hsub. vm_compute.
      intros Hsub. specialize (Hsub eq_refl). discriminate Hsub.
  - exists st'. split; [exact Hrun|]. rewrite Hkn. vm_compute. reflexivity.
Defined.

(** X6. The same for [MinesweeperAI.mark_safe]: it always returns, adds
    the cell to [safes] only, and when no stored sentence is emptied, it
    applies [Sentence.mark_safe] to every stored sentence, counts
    unchanged. *)
Theorem mark_safe_effect st c :
  ∃ st', mark_safe st c = Some st' ∧
    safes st' = {[c]} ∪ safes st ∧ mines st' = mines st ∧
    moves_made st' = moves_made st ∧
    height st' = height st ∧ width st' = width st ∧
    (length (knowledge st') ≤ length (knowledge st))%nat ∧
    (∀ s', s' ∈ knowledge st' →
           ∃ s, s ∈ knowledge st ∧ (s' = s ∨ s' = Sentence.mark_safe s c)) ∧
    ((∀ s, s ∈ knowledge st → ¬ (Sentence.cells s ⊆ {[c]})) →
     knowledge st' = (λ s, Sentence.mark_safe s c) <$> knowledge st).
Proof.
  destruct (mark_safe_spec
              (λ s', ∃ s, s ∈ knowledge st ∧
                          (s' = s ∨ s' = Sentence.mark_safe s c)) st c)
    as (st' & Hrun & (Hh & Hw & Hmv) & Hmi & Hsa & Hkn & Hlen).
  - apply Forall_forall. intros s Hs. exists s. auto.
  - intros s' (s & Hs & [->| ->]); exists s; split; auto.
    right. apply mark_safe_idem.
  - exists st'. repeat (split; [assumption|]). split.
    + intros s' Hs'. eapply Forall_forall in Hkn; eauto.
    + intros Hne.
      assert (∀ s, s ∈ knowledge st →
                   Sentence.len (Sentence.mark_safe s c) ≠ 0) as Hnz.
      { intros s Hs Hz. apply (Hne s Hs).
        unfold Sentence.len in Hz.
        assert (Sentence.cells (Sentence.mark_safe s c) ≡ ∅) as He
          by (apply size_empty_inv; lia).
        unfold Sentence.mark_safe in He.
        destruct (decide (c ∈ Sentence.cells s)); cbn [Sentence.cells] in He;
          [apply singleton_remainder; exact He | clear -He; set_solver]. }
      pose proof (for_sentence_no_removal (λ s, Sentence.mark_safe s c)
                    (knowledge st) [] (length (knowledge st)) Hnz (le_n _))
        as Hloop.
      cbn [length app] in Hloop.
      unfold mark_safe in Hrun. cbn [knowledge] in Hrun.
      rewrite Hloop in Hrun. cbn [mbind option_bind] in Hrun.
      injection Hrun as <-. reflexivity.
Qed.

(** ** Invariants of the knowledge base *)

(** X7. Monotonicity. [add_knowledge] returns from every state; it adds
    the cell to [moves_made] and to [safes], never removes a cell from
    [safes] or [mines], and keeps the board dimensions. *)
Theorem add_knowledge_monotone set_iter st c count :
  ∃ st', add_knowledge set_iter st c count = Some st' ∧
    moves_made st' = {[c]} ∪ moves_made st ∧
    c ∈ safes st' ∧ safes st ⊆ safes st' ∧ mines st ⊆ mines st' ∧
    height st' = height st ∧ width st' = width st.
Proof.
  destruct (add_knowledge_frame set_iter st c count)
    as (st' & Hrun & Hh & Hw & Hmv & Hc & Hs & Hm).
  exists st'. repeat (split; [assumption|]). assumption.
Qed.

(** X8. In every state reached from a fresh knowledge base, whatever the
    observations and whatever order each call iterates its sets in, every
    probed cell is recorded as safe, and the board dimensions are those
    given to [__init__]. *)
Theorem moves_made_are_safes (h w : Z) st :
  reachable h w st →
  moves_made st ⊆ safes st ∧ height st = h ∧ width st = w.
Proof.
  induction 1 as [|set_iter st c count st' Hreach (IH & Hh & Hw) _ Hrun].
  - split; [|split; reflexivity]. cbn [init moves_made safes]. clear. set_solver.
  - destruct (add_knowledge_frame set_iter st c count)
      as (st'' & Hrun' & Hh' & Hw' & Hmv & Hc & Hs & Hm).
    rewrite Hrun in Hrun'. injection Hrun' as <-.
    split; [|split; congruence].
    rewrite Hmv. intros x [Hx%elem_of_singleton|Hx]%elem_of_union.
    + subst x. exact Hc.
    + apply Hs, IH, Hx.
Qed.

Lemma moves_made_are_safes_witness :
  ∃ st, reachable 1 4 st ∧ moves_made st = {[(0, 0); (0, 2)]} ∧
        moves_made st ⊆ safes st ∧ height st = 1 ∧ width st = 4.
Proof.
  assert (∃ st, reachable 1 4 st ∧
                moves_made st = {[(0, 0); (0, 2)]}) as (st & Hreach & Hmv).
  { eexists. split.
    - calls [((0, 0), 1); ((0, 2), 1)].
    - by_compute. }
  exists st. split; [exact Hreach|]. split; [exact Hmv|].
  exact (moves_made_are_safes 1 4 st Hreach).
Defined.

Lemma mark_mine_cells s c :
  Sentence.cells (Sentence.mark_mine s c) ⊆ Sentence.cells s.
Proof.
  unfold Sentence.mark_mine. case_decide; cbn [Sentence.cells]; clear; set_solver.
Qed.

Lemma mark_safe_cells s c :
  Sentence.cells (Sentence.mark_safe s c) ⊆ Sentence.cells s.
Proof.
  unfold Sentence.mark_safe. case_decide; cbn [Sentence.cells]; clear; set_solver.
Qed.

Lemma known_mines_cells s : Sentence.known_mines s ⊆ Sentence.cells s.
Proof. unfold Sentence.known_mines. case_decide; clear; set_solver. Qed.

Lemma known_safes_cells s : Sentence.known_safes s ⊆ Sentence.cells s.
Proof. unfold Sentence.known_safes. case_decide; clear; set_solver. Qed.

(** Everything step 5 derives from a pair is made of cells of its second
    sentence. *)
Lemma pair_inferred_cells (set_iter : gset cell → list cell) A B :
  iter_ok set_iter →
  (∀ s, s ∈ new_knowledge (pair_inferred set_iter A B) →
        Sentence.cells s ⊆ Sentence.cells B) ∧
  (∀ n, n ∈ cells_to_mark_as_safe (pair_inferred set_iter A B) →
        n ∈ Sentence.cells B) ∧
  (∀ n, n ∈ cells_to_mark_as_mines (pair_inferred set_iter A B) →
        n ∈ Sentence.cells B).
Proof.
  intros Hit.
  assert (∀ n : cell, n ∈ [] → n ∈ Sentence.cells B) as Hnil
    by (intros n Hn; inversion Hn).
  assert (∀ s : Sentence.t, s ∈ [] → Sentence.cells s ⊆ Sentence.cells B)
    as Hnil' by (intros s Hs; inversion Hs).
  assert (∀ n, n ∈ set_iter (Sentence.cells B ∖ Sentence.cells A) →
               n ∈ Sentence.cells B) as Hsub.
  { intros n Hn%(elem_of_set_iter _ _ _ Hit).
    apply elem_of_difference in Hn as [Hn _]. exact Hn. }
  unfold pair_inferred, infer_pair.
  destruct (Sentence.eq A B); [cbn; auto|].
  case_decide; [|cbn; auto].
  cbn [Sentence.cells Sentence.count].
  repeat case_decide;
    cbn [new_knowledge cells_to_mark_as_safe cells_to_mark_as_mines app];
    split; auto.
  intros s Hs%list_elem_of_singleton. subst s. cbn [Sentence.cells].
  intros n Hn. apply elem_of_difference in Hn as [Hn _]. exact Hn.
Qed.

Lemma unclassified_on_board st c n :
  n ∈ unclassified st c → in_bounds (height st) (width st) n.
Proof.
  unfold unclassified, neighbors. rewrite !elem_of_filter. tauto.
Qed.

Lemma add_knowledge_on_board (set_iter : gset cell → list cell) st c count :
  iter_ok set_iter →
  on_board st (mines st) →
  Forall (λ s, on_board st (Sentence.cells s)) (knowledge st) →
  returns (add_knowledge set_iter st c count) (λ st',
    height st' = height st ∧ width st' = width st ∧
    on_board st' (mines st') ∧
    Forall (λ s, on_board st' (Sentence.cells s)) (knowledge st')).
Proof.
  intros Hit Hm Hkn. unfold on_board in *.
  set (P := λ s : Sentence.t,
              ∀ x, x ∈ Sentence.cells s → in_bounds (height st) (width st) x)
    in *.
  assert (∀ n s, P s → P (Sentence.mark_mine s n)) as Pmine
    by (intros n s Hs x Hx; apply Hs, (mark_mine_cells s n), Hx).
  assert (∀ n s, P s → P (Sentence.mark_safe s n)) as Psafe
    by (intros n s Hs x Hx; apply Hs, (mark_safe_cells s n), Hx).
  unfold add_knowledge.
  eapply returns_bind.
  { apply (observe_spec set_iter P); auto.
    intros _ _ x Hx. cbn [Sentence.cells] in Hx.
    apply (unclassified_on_board st c x Hx). }
  cbv beta. intros st1 (Hh1 & Hw1 & _ & Hkn1 & _ & Hmi1 & _).
  assert (∀ x, x ∈ mines st1 → in_bounds (height st) (width st) x) as Hm1.
  { intros x. rewrite Hmi1. intros [Hx|Hx]%elem_of_union; [|auto].
    destruct (decide _) in Hx; [|inversion Hx].
    apply elem_of_list_to_set, (elem_of_set_iter _ _ _ Hit) in Hx.
    apply (unclassified_on_board st c x Hx). }
  eapply returns_bind.
  { apply (propagate_spec set_iter P); auto. }
  cbv beta. intros st2 ((Hh2 & Hw2 & _) & Hkn2 & _ & Hmi2 & _).
  assert (∀ x, x ∈ mines st2 → in_bounds (height st) (width st) x) as Hm2.
  { intros x. rewrite Hmi2. intros [Hx|Hx]%elem_of_union; [|auto].
    apply elem_of_list_to_set, (elem_of_set_iter _ _ _ Hit) in Hx.
    apply elem_of_union_list in Hx as (X & (s & -> & Hs)%list_elem_of_fmap & Hx).
    eapply Forall_forall in Hkn1; [|exact Hs].
    apply Hkn1, (known_mines_cells s), Hx. }
  eapply returns_mono.
  { apply (resolve_spec set_iter P); auto.
    apply Forall_forall. intros s (A & B & HA & HB & Hs)%elem_of_new_knowledge.
    destruct (pair_inferred_cells set_iter A B Hit) as (Hnew & _ & _).
    eapply Forall_forall in Hkn2; [|exact HB].
    intros x Hx. apply Hkn2, (Hnew s Hs), Hx. }
  cbv beta. intros st3 ((Hh3 & Hw3 & _) & Hkn3 & _ & Hmi3 & _).
  assert (height st3 = height st) as Hh by congruence.
  assert (width st3 = width st) as Hw by congruence.
  rewrite Hh, Hw. split; [reflexivity|]. split; [reflexivity|]. split.
  - intros x. rewrite Hmi3. intros [Hx|Hx]%elem_of_union; [|auto].
    apply elem_of_list_to_set, elem_of_cells_to_mark_as_mines in Hx
      as (A & B & HA & HB & Hx).
    destruct (pair_inferred_cells set_iter A B Hit) as (_ & _ & Hmines).
    eapply Forall_forall in Hkn2; [|exact HB].
    apply Hkn2, Hmines, Hx.
  - exact Hkn3.
Qed.

(** X9. In every state reached from a fresh knowledge base, whatever the
    observations (an observed cell outside the board included) and
    whatever order each call iterates its sets in, every cell in [mines]
    and every cell of every stored sentence lies on the board: the
    knowledge base never flags an off-board cell as a mine. *)
Theorem mines_on_board (h w : Z) st :
  reachable h w st →
  on_board st (mines st) ∧
  ∀ s, s ∈ knowledge st → on_board st (Sentence.cells s).
Proof.
  intros Hreach.
  enough (on_board st (mines st) ∧
          Forall (λ s, on_board st (Sentence.cells s)) (knowledge st))
    as [Hm Hkn].
  { split; [exact Hm|]. intros s Hs. eapply Forall_forall in Hkn; eauto. }
  induction Hreach as [|set_iter st c count st' Hreach [IHm IHkn] Hit Hrun].
  - split; [|constructor]. intros x Hx. cbn [init mines] in Hx.
    apply not_elem_of_empty in Hx. contradiction.
  - destruct (add_knowledge_on_board set_iter st c count Hit IHm IHkn)
      as (st'' & Hrun' & _ & _ & Hm' & Hkn').
    rewrite Hrun in Hrun'. injection Hrun' as <-. auto.
Qed.

(** On a 3x3 board, the calls ((-1,0), 1) and ((0,0), 2): the first
    observes a cell outside the board and stores {(0,0),(0,1)} = 1; the
    second leaves (0,1) in [mines] and {(0,1),(1,0),(1,1)} = 2 stored. *)
Lemma mines_on_board_witness :
  ∃ st, reachable 3 3 st ∧
        moves_made st = {[(-1, 0); (0, 0)]} ∧ mines st = {[(0, 1)]} ∧
        knowledge st = [Sentence.mk {[(0, 1); (1, 0); (1, 1)]} 2] ∧
        on_board st (mines st) ∧
        ∀ s, s ∈ knowledge st → on_board st (Sentence.cells s).
Proof.
  assert (∃ st, reachable 3 3 st ∧
                moves_made st = {[(-1, 0); (0, 0)]} ∧ mines st = {[(0, 1)]} ∧
                knowledge st = [Sentence.mk {[(0, 1); (1, 0); (1, 1)]} 2])
    as (st & Hreach & Hmv & Hmines & Hkn).
  { eexists. split.
    - calls [((-1, 0), 1); ((0, 0), 2)].
    - conj_by_compute. }
  exists st. split; [exact Hreach|]. split; [exact Hmv|].
  split; [exact Hmines|]. split; [exact Hkn|].
  exact (mines_on_board 3 3 st Hreach).
Defined.

(** X10. Soundness under truthful observations. In every state reached
    by observations that are truthful for one mine placement (each of a
    cell that is not a mine, with its true count), whatever order each call
    iterates its sets in, every cell in [mines] is a mine, no cell in
    [safes] is a mine, and every stored sentence is true of the placement,
    with its count between 0 and the number of its cells. *)
Theorem truthful_knowledge_sound (board : gset cell) (h w : Z) st :
  reachable_truthful board h w st →
  mines st ⊆ board ∧ safes st ## board ∧
  ∀ s, s ∈ knowledge st →
       true_of board s ∧ 0 ≤ Sentence.count s ≤ Sentence.len s.
Proof.
  intros Hreach.
  destruct (reachable_truthful_sound board h w st Hreach)
    as ([Hs Hm Hkn] & _).
  split; [exact Hm|]. split; [exact Hs|].
  intros s Hin. eapply Forall_forall in Hkn; [|exact Hin].
  split; [exact Hkn|].
  unfold true_of in Hkn. unfold Sentence.len.
  assert (size (Sentence.cells s ∩ board) ≤ size (Sentence.cells s))%nat
    by (apply subseteq_size; clear; set_solver).
  lia.
Qed.

(** On a 2x4 board with mines at (0,1) and (1,0), the truthful
    observations of (0,0), (0,2) and (1,1), the last call iterating its
    sets in the reverse of the order of the first two. Step 4 of the last
    call marks (1,0), then (0,1); the second marking skips the sentence
    {(0,1),(0,3),(1,2),(1,3)} = 1, which stays stored with the known mine
    (0,1) in it, and is still true of the placement. *)
Lemma truthful_knowledge_sound_witness :
  ∃ st, reachable_truthful {[(0, 1); (1, 0)]} 2 4 st ∧
        mines st = {[(0, 1); (1, 0)]} ∧
        safes st = {[(0, 0); (0, 2); (1, 1)]} ∧
        knowledge st = [Sentence.mk {[(0, 1); (0, 3); (1, 2); (1, 3)]} 1;
                        Sentence.mk {[(1, 2)]} 0;
                        Sentence.mk {[(0, 1); (0, 3); (1, 3)]} 1] ∧
        mines st ⊆ {[(0, 1); (1, 0)]} ∧ safes st ## {[(0, 1); (1, 0)]} ∧
        ∀ s, s ∈ knowledge st →
             true_of {[(0, 1); (1, 0)]} s ∧
             0 ≤ Sentence.count s ≤ Sentence.len s.
Proof.
  assert (∃ st, reachable_truthful {[(0, 1); (1, 0)]} 2 4 st ∧
                mines st = {[(0, 1); (1, 0)]} ∧
                safes st = {[(0, 0); (0, 2); (1, 1)]} ∧
                knowledge st
                = [Sentence.mk {[(0, 1); (0, 3); (1, 2); (1, 3)]} 1;
                   Sentence.mk {[(1, 2)]} 0;
                   Sentence.mk {[(0, 1); (0, 3); (1, 3)]} 1])
    as (st & Hreach & Hmines & Hsafes & Hkn).
  { eexists. split.
    - eapply (truthful_step _ _ _ reversed _ (1, 1));
        [probes [(0, 0); (0, 2)] | apply iter_ok_reversed
        | by_compute | by_compute].
    - conj_by_compute. }
  exists st. split; [exact Hreach|]. split; [exact Hmines|].
  split; [exact Hsafes|]. split; [exact Hkn|].
  exact (truthful_knowledge_sound {[(0, 1); (1, 0)]} 2 4 st Hreach).
Defined.

(** ** Growth of the list of sentences *)

Lemma bind_length_le {X Y} (f : X → list Y) (n : nat) (l : list X) :
  (∀ x, length (f x) ≤ n)%nat → (length (l ≫= f) ≤ length l * n)%nat.
Proof.
  intros Hf. induction l as [|x l IH]; [simpl; lia|].
  rewrite bind_cons, length_app. specialize (Hf x). simpl. lia.
Qed.

Lemma pair_inferred_length (set_iter : gset cell → list cell) A B :
  (length (new_knowledge (pair_inferred set_iter A B)) ≤ 1)%nat.
Proof.
  unfold pair_inferred, infer_pair.
  destruct (Sentence.eq A B); [simpl; lia|].
  repeat case_decide; simpl; lia.
Qed.

Lemma new_knowledge_length (set_iter : gset cell → list cell) kn :
  (length (new_knowledge (infer set_iter kn)) ≤ length kn * length kn)%nat.
Proof.
  rewrite infer_spec. cbn [new_knowledge].
  etrans; [apply (bind_length_le _ (length kn * 1))|lia].
  intros A. apply bind_length_le. intros B. apply pair_inferred_length.
Qed.

(** X11. One call of [add_knowledge] on a knowledge base holding [n]
    sentences leaves at most [(n + 1) + (n + 1)^2] of them: at most one
    sentence for the observation, and at most one per ordered pair of stored
    sentences in step 5. *)
Theorem knowledge_growth_bound set_iter st c count :
  ∃ st', add_knowledge set_iter st c count = Some st' ∧
    (length (knowledge st')
     ≤ S (length (knowledge st))
       + S (length (knowledge st)) * S (length (knowledge st)))%nat.
Proof.
  assert (∀ l : list Sentence.t, Forall (λ _, True) l) as Htriv
    by (intros l; apply Forall_forall; auto).
  destruct (observe_spec set_iter (λ _, True) st c count)
    as (st1 & H1 & _ & _ & _ & _ & Hlen1 & _); auto.
  destruct (propagate_spec set_iter (λ _, True) st1)
    as (st2 & H2 & _ & _ & Hlen2 & _); auto.
  destruct (resolve_spec set_iter (λ _, True) st2)
    as (st3 & H3 & _ & _ & Hlen3 & _); auto.
  exists st3. split.
  - unfold add_knowledge. rewrite H1. cbn [mbind option_bind].
    rewrite H2. cbn [mbind option_bind]. exact H3.
  - pose proof (new_knowledge_length set_iter (knowledge st2)) as Hnew.
    nia.
Qed.

(** ** Choosing a move *)

Lemma make_safe_move_Some (set_iter : gset cell → list cell) choice st m :
  iter_ok set_iter → choice_ok choice →
  make_safe_move set_iter choice st = Some m →
  m ∈ safes st ∧ m ∉ moves_made st ∧ m ∉ mines st.
Proof.
  intros Hit Hch. unfold make_safe_move.
  destruct (filter _ (set_iter (safes st))) as [|x l] eqn:Hf; [discriminate|].
  intros [= <-].
  assert (choice (x :: l) ∈ x :: l) as Hin by (apply Hch; discriminate).
  assert (choice (x :: l)
          ∈ filter (λ move, (move ∉ moves_made st) ∧ (move ∉ mines st))
                   (set_iter (safes st))) as Hin'
    by (rewrite Hf; exact Hin).
  apply list_elem_of_filter in Hin' as [[Hmv Hmi] Hsafe].
  apply (elem_of_set_iter _ _ _ Hit) in Hsafe. auto.
Qed.

(** X12. [make_safe_move] returns a cell of [safes] that is neither in
    [moves_made] nor in [mines] whenever there is one, and [None] exactly
    when every safe cell has been probed or is also recorded as a mine. *)
Theorem make_safe_move_spec (set_iter : gset cell → list cell) choice st :
  iter_ok set_iter → choice_ok choice →
  match make_safe_move set_iter choice st with
  | Some m => m ∈ safes st ∧ m ∉ moves_made st ∧ m ∉ mines st
  | None => safes st ⊆ moves_made st ∪ mines st
  end.
Proof.
  intros Hit Hch.
  destruct (make_safe_move set_iter choice st) as [m|] eqn:Hmove.
  - eapply make_safe_move_Some; eauto.
  - unfold make_safe_move in Hmove.
    destruct (filter _ (set_iter (safes st))) as [|x l] eqn:Hf; [|discriminate].
    intros m Hm. apply elem_of_union.
    destruct (decide (m ∈ moves_made st)) as [|Hmv]; [left; assumption|].
    destruct (decide (m ∈ mines st)) as [|Hmi]; [right; assumption|].
    exfalso.
    assert (m ∈ filter (λ move, (move ∉ moves_made st) ∧ (move ∉ mines st))
                       (set_iter (safes st))) as Hin.
    { apply list_elem_of_filter. split; [auto|].
      apply (elem_of_set_iter _ _ _ Hit), Hm. }
    rewrite Hf in Hin. inversion Hin.
Qed.

Lemma make_safe_move_spec_witness :
  ∃ m, make_safe_move elements (λ l, default (0, 0) (head l))
         (mk 1 4 {[(0, 0)]} {[(0, 1)]} {[(0, 0); (0, 3)]} []) = Some m ∧
       m ∈ ({[(0, 0); (0, 3)]} : gset cell) ∧ m ∉ ({[(0, 0)]} : gset cell).
Proof.
  pose proof (make_safe_move_spec elements (λ l, default (0, 0) (head l))
                (mk 1 4 {[(0, 0)]} {[(0, 1)]} {[(0, 0); (0, 3)]} [])
                iter_ok_elements) as Hspec.
  destruct (make_safe_move elements (λ l, default (0, 0) (head l))
              (mk 1 4 {[(0, 0)]} {[(0, 1)]} {[(0, 0); (0, 3)]} []))
    as [m|] eqn:Hmove.
  - exists m. split; [reflexivity|].
    destruct Hspec as (Hs & Hmv & _); [|auto].
    intros [|x l] Hl; [contradiction|]. simpl. left.
  - vm_compute in Hmove. discriminate Hmove.
Defined.

(** X13. In truthful play a safe move is really safe: in every state
    reached by truthful observations, whatever order each call iterated its
    sets in and whatever order [make_safe_move] iterates [safes] in, the
    cell that [make_safe_move] returns is not a mine of the placement and
    has not been probed. *)
Theorem safe_move_is_safe (set_iter : gset cell → list cell)
    (choice : list cell → cell) (board : gset cell) (h w : Z) st m :
  iter_ok set_iter → choice_ok choice →
  reachable_truthful board h w st →
  make_safe_move set_iter choice st = Some m →
  m ∉ board ∧ m ∉ moves_made st.
Proof.
  intros Hit Hch Hreach Hmove.
  destruct (make_safe_move_Some set_iter choice st m Hit Hch Hmove)
    as (Hsafe & Hmv & _).
  destruct (reachable_truthful_sound board h w st Hreach)
    as ([Hs _ _] & _).
  split; [|exact Hmv]. intros Hb.
  rewrite elem_of_disjoint in Hs. eauto.
Qed.

Lemma safe_move_is_safe_witness :
  ∃ st, reachable_truthful {[(0, 1)]} 1 4 st ∧
        make_safe_move elements (λ l, default (0, 0) (head l)) st
          = Some (0, 3) ∧
        (0, 3) ∉ ({[(0, 1)]} : gset cell) ∧ (0, 3) ∉ moves_made st.
Proof.
  assert (∃ st, reachable_truthful {[(0, 1)]} 1 4 st ∧
            make_safe_move elements (λ l, default (0, 0) (head l)) st
              = Some (0, 3)) as (st & Hreach & Hmove).
  { eexists. split.
    - probes [(0, 0); (0, 2)].
    - by_compute. }
  exists st. split; [exact Hreach|]. split; [exact Hmove|].
  refine (safe_move_is_safe elements (λ l, default (0, 0) (head l))
            {[(0, 1)]} 1 4 st (0, 3) iter_ok_elements _ Hreach Hmove).
  intros [|x l] Hl; [contradiction|]. simpl. left.
Defined.

(** X14. A probed cell is never proposed again: after
    [add_knowledge(c, count)], [make_safe_move] does not return [c], and
    [make_random_move] does not return it either, whatever it draws; when
    it draws [c] it returns [None] at once, without drawing again. *)
Theorem probed_cell_not_proposed (set_iter : gset cell → list cell)
    (choice : list cell → cell) st c count st' :
  iter_ok set_iter → choice_ok choice →
  add_knowledge set_iter st c count = Some st' →
  make_safe_move set_iter choice st' ≠ Some c ∧
  (∀ i j, make_random_move st' i j ≠ Some c) ∧
  make_random_move st' c.1 c.2 = None.
Proof.
  intros Hit Hch Hrun.
  destruct (add_knowledge_frame set_iter st c count)
    as (st'' & Hrun' & _ & _ & Hmv & _).
  rewrite Hrun in Hrun'. injection Hrun' as <-.
  assert (c ∈ moves_made st') as Hc
    by (rewrite Hmv; apply elem_of_union; left; apply elem_of_singleton;
        reflexivity).
  split; [|split].
  - intros Hmove.
    destruct (make_safe_move_Some set_iter choice st' c Hit Hch Hmove)
      as (_ & Hn & _). contradiction.
  - intros i j. unfold make_random_move.
    case_decide as Hd; [|discriminate]. intros [= <-]. tauto.
  - unfold make_random_move. destruct c as [i j]. cbn [fst snd].
    rewrite decide_False by tauto. reflexivity.
Qed.

Lemma probed_cell_not_proposed_witness :
  ∃ st', add_knowledge elements (init 1 4) (0, 0) 0 = Some st' ∧
         make_random_move st' 0 0 = None.
Proof.
  assert (∃ st', add_knowledge elements (init 1 4) (0, 0) 0 = Some st')
    as (st' & Hrun) by (eexists; by_compute).
  exists st'. split; [exact Hrun|].
  refine (proj2 (proj2 (probed_cell_not_proposed elements
                          (λ l, default (0, 0) (head l))
                          (init 1 4) (0, 0) 0 st' iter_ok_elements _ Hrun))).
  intros [|x l] Hl; [contradiction|]. simpl. left.
Defined.

(** ** The game board *)

Lemma in_bounds_spec (h w : Z) (c : cell) :
  in_bounds h w c ↔ (0 ≤ c.1 < h ∧ 0 ≤ c.2 < w).
Proof. unfold in_bounds. rewrite andb_True, !bool_decide_spec. tauto. Qed.

Lemma py_index_in_range (n : nat) (i : Z) :
  0 ≤ i < Z.of_nat n → py_index n i = Some (Z.to_nat i).
Proof. intros H. unfold py_index. rewrite decide_True by exact H. reflexivity. Qed.

Lemma py_getitem_in_range {X} (l : list X) (i : Z) :
  0 ≤ i < Z.of_nat (length l) → py_getitem l i = l !! Z.to_nat i.
Proof.
  intros H. unfold py_getitem. rewrite py_index_in_range by exact H. reflexivity.
Qed.

Lemma py_setitem_in_range {X} (l : list X) (i : Z) (x : X) :
  0 ≤ i < Z.of_nat (length l) →
  py_setitem l i x = Some (<[Z.to_nat i := x]> l).
Proof.
  intros H. unfold py_setitem. rewrite py_index_in_range by exact H. reflexivity.
Qed.

(** Reading a cell inside the bounds of a field of the right shape. *)
Lemma grid_at_in_bounds (h w : Z) (bd : list (list bool)) (c : cell) :
  length bd = Z.to_nat h →
  Forall (λ row, length row = Z.to_nat w) bd →
  in_bounds h w c →
  ∃ row b, bd !! Z.to_nat c.1 = Some row ∧ row !! Z.to_nat c.2 = Some b ∧
           length row = Z.to_nat w ∧
           py_getitem bd c.1 = Some row ∧ py_getitem row c.2 = Some b ∧
           grid_at bd c = Some b ∧ cell_bit bd c = Some b.
Proof.
  intros Hrows Hcols [Hi Hj]%in_bounds_spec.
  destruct (lookup_lt_is_Some_2 bd (Z.to_nat c.1)) as [row Hrow]; [lia|].
  assert (length row = Z.to_nat w) as Hlen
    by (eapply (Forall_lookup_1 _ _ _ _ Hcols), Hrow).
  destruct (lookup_lt_is_Some_2 row (Z.to_nat c.2)) as [b Hb]; [lia|].
  assert (py_getitem bd c.1 = Some row) as Hg1
    by (rewrite py_getitem_in_range by lia; exact Hrow).
  assert (py_getitem row c.2 = Some b) as Hg2
    by (rewrite py_getitem_in_range by lia; exact Hb).
  exists row, b. repeat (split; [assumption|]). split.
  - unfold grid_at. rewrite Hg1. cbn [mbind option_bind]. exact Hg2.
  - unfold cell_bit. rewrite Hrow. cbn [mbind option_bind]. exact Hb.
Qed.

Lemma empty_board_ok (h w : Z) : grid_ok h w ∅ (empty_board h w).
Proof.
  assert (length (empty_board h w) = Z.to_nat h) as Hrows
    by apply length_replicate.
  assert (Forall (λ row, length row = Z.to_nat w) (empty_board h w)) as Hcols
    by (apply Forall_replicate, length_replicate).
  constructor; [exact Hrows | exact Hcols | |].
  - intros c Hc.
    destruct (grid_at_in_bounds h w _ c Hrows Hcols Hc)
      as (row & b & Hrow & Hb & _ & _ & _ & -> & _).
    unfold empty_board in Hrow.
    apply lookup_replicate in Hrow as [-> _].
    apply lookup_replicate in Hb as [-> _].
    rewrite bool_decide_eq_false_2 by (clear; set_solver). reflexivity.
  - intros c Hc. apply not_elem_of_empty in Hc. contradiction.
Qed.

(** Setting the entry of an in-bounds cell adds that cell to the mines the
    field holds. *)
Lemma grid_ok_insert (h w : Z) (ms : gset cell) (bd : list (list bool))
    (c : cell) (row : list bool) :
  grid_ok h w ms bd → in_bounds h w c →
  bd !! Z.to_nat c.1 = Some row →
  grid_ok h w ({[c]} ∪ ms)
          (<[Z.to_nat c.1 := <[Z.to_nat c.2 := true]> row]> bd).
Proof.
  intros [Hrows Hcols Hagree Hinside] Hc Hrow.
  assert (length row = Z.to_nat w) as Hlen
    by (eapply (Forall_lookup_1 _ _ _ _ Hcols), Hrow).
  assert (length (<[Z.to_nat c.1 := <[Z.to_nat c.2 := true]> row]> bd)
          = Z.to_nat h) as Hrows' by (rewrite length_insert; exact Hrows).
  assert (Forall (λ row, length row = Z.to_nat w)
                 (<[Z.to_nat c.1 := <[Z.to_nat c.2 := true]> row]> bd))
    as Hcols'
    by (apply Forall_insert; [exact Hcols | rewrite length_insert; exact Hlen]).
  constructor; [exact Hrows' | exact Hcols' | |].
  - intros c' Hc'.
    destruct (grid_at_in_bounds h w _ c' Hrows' Hcols' Hc')
      as (row' & b' & Hrow' & Hb' & _ & _ & _ & -> & _).
    destruct (grid_at_in_bounds h w _ c' Hrows Hcols Hc')
      as (row0 & b0 & Hrow0 & Hb0 & _ & _ & _ & Hold & _).
    rewrite (Hagree c' Hc') in Hold. injection Hold as Hold.
    apply in_bounds_spec in Hc as [Hi Hj].
    apply in_bounds_spec in Hc' as [Hi' Hj'].
    f_equal. rewrite list_lookup_insert in Hrow'.
    destruct (decide (Z.to_nat c.1 = Z.to_nat c'.1 ∧ _)) as [[Heq _]|Hne]
      in Hrow'.
    + injection Hrow' as <-.
      assert (row0 = row) as -> by congruence.
      rewrite list_lookup_insert in Hb'.
      destruct (decide (Z.to_nat c.2 = Z.to_nat c'.2 ∧ _)) as [[Heq2 _]|Hne2]
        in Hb'.
      * injection Hb' as <-. symmetry. apply bool_decide_eq_true_2.
        apply elem_of_union. left. apply elem_of_singleton.
        destruct c, c'. cbn [fst snd] in *. f_equal; lia.
      * assert (b' = b0) as -> by congruence. rewrite <- Hold.
        apply bool_decide_ext. rewrite elem_of_union, elem_of_singleton.
        split; [auto|]. intros [->|H]; [|exact H].
        exfalso. apply Hne2. split; [reflexivity|]. lia.
    + assert (row' = row0) as -> by congruence.
      assert (b' = b0) as -> by congruence. rewrite <- Hold.
      apply bool_decide_ext. rewrite elem_of_union, elem_of_singleton.
      split; [auto|]. intros [->|H]; [|exact H].
      exfalso. apply Hne. split; [reflexivity|]. lia.
  - intros c' [Hc'%elem_of_singleton|Hc']%elem_of_union.
    + subst c'. exact Hc.
    + apply Hinside, Hc'.
Qed.


Lemma place_ok (h w : Z) (draws : list cell) :
  Forall (λ c, in_bounds h w c) draws →
  ∀ wanted ms bd ms' bd',
  grid_ok h w ms bd →
  place draws wanted ms bd = Some (ms', bd') →
  grid_ok h w ms' bd' ∧ Z.of_nat (size ms') = wanted ∧
  ms' ⊆ ms ∪ list_to_set draws.
Proof.
  induction 1 as [|[i j] draws Hc Hdraws IH];
    intros wanted ms bd ms' bd' Hok Hrun; simpl in Hrun.
  - destruct (decide (Z.of_nat (size ms) = wanted)) as [Hsz|]; [|discriminate].
    injection Hrun as <- <-. split; [exact Hok|]. split; [exact Hsz|].
    clear. set_solver.
  - destruct (decide (Z.of_nat (size ms) = wanted)) as [Hsz|Hsz].
    { injection Hrun as <- <-. split; [exact Hok|]. split; [exact Hsz|].
      clear. set_solver. }
    destruct Hok as [Hrows Hcols Hagree Hinside].
    destruct (grid_at_in_bounds h w bd (i, j) Hrows Hcols Hc)
      as (row & b & Hrow & Hb & Hlen & Hg1 & Hg2 & Hat & _).
    cbn [fst snd] in *.
    rewrite Hg1 in Hrun. cbn [mbind option_bind] in Hrun.
    rewrite Hg2 in Hrun. cbn [mbind option_bind] in Hrun.
    apply in_bounds_spec in Hc as Hij. cbn [fst snd] in Hij.
    destruct b.
    + destruct (IH wanted ms bd ms' bd') as (Hok' & Hsz' & Hsub);
        [constructor; assumption | exact Hrun |].
      split; [exact Hok'|]. split; [exact Hsz'|].
      clear -Hsub. set_solver.
    + rewrite py_setitem_in_range in Hrun by lia.
      cbn [mbind option_bind] in Hrun.
      rewrite py_setitem_in_range in Hrun by lia.
      cbn [mbind option_bind] in Hrun.
      destruct (IH wanted ({[(i, j)]} ∪ ms)
                  (<[Z.to_nat i := <[Z.to_nat j := true]> row]> bd) ms' bd')
        as (Hok' & Hsz' & Hsub); [|exact Hrun|].
      { apply (grid_ok_insert h w ms bd (i, j) row);
          [constructor; assumption | exact Hc | exact Hrow]. }
      split; [exact Hok'|]. split; [exact Hsz'|].
      clear -Hsub. set_solver.
Qed.

(** X15. Whenever [Minesweeper.__init__] returns (the draws of
    [random.randrange] being in range), the game has the requested
    dimensions and number of mines, no mine found, every mine on the board
    and among the cells drawn, and a board that agrees with the mine set:
    [is_mine] answers membership in [self.mines] for every cell inside the
    bounds. *)
Theorem minesweeper_init_board (h w wanted : Z) (draws : list cell)
    (g : Minesweeper.t) :
  Forall (λ c, in_bounds h w c) draws →
  Minesweeper.init h w wanted draws = Some g →
  Minesweeper.height g = h ∧ Minesweeper.width g = w ∧
  mines_found g = ∅ ∧
  Z.of_nat (size (Minesweeper.mines g)) = wanted ∧
  Minesweeper.mines g ⊆ list_to_set draws ∧
  board_ok g ∧
  (∀ c, in_bounds h w c →
        is_mine g c = Some (bool_decide (c ∈ Minesweeper.mines g))) ∧
  (∀ c, c ∈ Minesweeper.mines g → in_bounds h w c).
Proof.
  intros Hdraws Hinit. unfold Minesweeper.init in Hinit.
  destruct (place draws wanted ∅ (empty_board h w)) as [[ms bd]|] eqn:Hplace;
    [|discriminate].
  cbn [mbind option_bind] in Hinit. injection Hinit as <-.
  destruct (place_ok h w draws Hdraws wanted ∅ _ ms bd
              (empty_board_ok h w) Hplace) as (Hok & Hsz & Hsub).
  cbn [Minesweeper.height Minesweeper.width Minesweeper.mines mines_found].
  split; [reflexivity|]. split; [reflexivity|]. split; [reflexivity|].
  split; [exact Hsz|]. split; [clear -Hsub; set_solver|].
  split; [exact Hok|]. destruct Hok as [_ _ Hagree Hinside].
  split; [exact Hagree | exact Hinside].
Qed.

Lemma minesweeper_init_board_witness :
  ∃ g, Minesweeper.init 2 3 2 [(0, 1); (0, 1); (1, 2)] = Some g ∧
       Minesweeper.mines g = {[(0, 1); (1, 2)]} ∧
       is_mine g (1, 2) = Some (bool_decide ((1, 2) ∈ Minesweeper.mines g)).
Proof.
  assert (∃ g, Minesweeper.init 2 3 2 [(0, 1); (0, 1); (1, 2)] = Some g ∧
               Minesweeper.mines g = {[(0, 1); (1, 2)]}) as (g & Hinit & Hm)
    by (eexists; split; by_compute).
  exists g. split; [exact Hinit|]. split; [exact Hm|].
  destruct (minesweeper_init_board 2 3 2 [(0, 1); (0, 1); (1, 2)] g)
    as (_ & _ & _ & _ & _ & _ & Hagree & _); [|exact Hinit|].
  - repeat constructor.
  - apply Hagree. vm_compute. exact I.
Defined.

Lemma place_distinct (h w : Z) (draws : list cell) :
  NoDup draws → Forall (λ c, in_bounds h w c) draws →
  ∀ ms bd, (∀ c, c ∈ draws → c ∉ ms) → grid_ok h w ms bd →
  ∃ bd', place draws (Z.of_nat (size ms + length draws)) ms bd
         = Some (list_to_set draws ∪ ms, bd').
Proof.
  induction 1 as [|[i j] draws Hnotin Hnodup IH];
    intros Hin ms bd Hfresh Hok; simpl.
  - rewrite decide_True by (f_equal; lia). exists bd. f_equal. f_equal.
    clear. set_solver.
  - rewrite decide_False by lia.
    apply Forall_cons in Hin as [Hc Hin].
    destruct Hok as [Hrows Hcols Hagree Hinside].
    destruct (grid_at_in_bounds h w bd (i, j) Hrows Hcols Hc)
      as (row & b & Hrow & Hb & Hlen & Hg1 & Hg2 & Hat & _).
    cbn [fst snd] in *.
    rewrite Hg1. cbn [mbind option_bind]. rewrite Hg2. cbn [mbind option_bind].
    assert (b = false) as ->.
    { rewrite (Hagree (i, j) Hc) in Hat. injection Hat as <-.
      apply bool_decide_eq_false_2, Hfresh. left. }
    apply in_bounds_spec in Hc as Hij. cbn [fst snd] in Hij.
    rewrite py_setitem_in_range by lia. cbn [mbind option_bind].
    rewrite py_setitem_in_range by lia. cbn [mbind option_bind].
    destruct (IH Hin ({[(i, j)]} ∪ ms)
                (<[Z.to_nat i := <[Z.to_nat j := true]> row]> bd))
      as (bd' & Hrun).
    + intros c Hcd [Hc'%elem_of_singleton|Hc']%elem_of_union.
      * subst c. contradiction.
      * apply (Hfresh c); [right; exact Hcd | exact Hc'].
    + apply (grid_ok_insert h w ms bd (i, j) row);
        [constructor; assumption | exact Hc | exact Hrow].
    + exists bd'.
      rewrite size_insert in Hrun by (apply Hfresh; left).
      replace (Z.of_nat (size ms + S (length draws)))
        with (Z.of_nat (S (size ms) + length draws)) by lia.
      rewrite Hrun. f_equal. f_equal. clear. set_solver.
Qed.

(** X16. [Minesweeper.__init__] returns when [random.randrange] draws as
    many different cells of the board as there are mines to place: the
    mines are exactly the cells drawn. *)
Theorem minesweeper_init_returns (h w : Z) (draws : list cell) :
  NoDup draws → Forall (λ c, in_bounds h w c) draws →
  ∃ g, Minesweeper.init h w (Z.of_nat (length draws)) draws = Some g ∧
       Minesweeper.mines g = list_to_set draws.
Proof.
  intros Hnodup Hin.
  destruct (place_distinct h w draws Hnodup Hin ∅ (empty_board h w))
    as (bd' & Hrun).
  - intros c _. apply not_elem_of_empty.
  - apply empty_board_ok.
  - rewrite size_empty in Hrun. cbn [Nat.add] in Hrun.
    unfold Minesweeper.init. rewrite Hrun. cbn [mbind option_bind].
    eexists. split; [reflexivity|].
    cbn [Minesweeper.mines]. clear. set_solver.
Qed.

Lemma minesweeper_init_returns_witness :
  ∃ g, Minesweeper.init 2 3 2 [(0, 1); (1, 2)] = Some g ∧
       Minesweeper.mines g = list_to_set [(0, 1); (1, 2)].
Proof.
  apply (minesweeper_init_returns 2 3 [(0, 1); (1, 2)]).
  - apply NoDup_cons. split; [|apply NoDup_cons; split; [|apply NoDup_nil_2]].
    + intros H. apply list_elem_of_singleton in H. discriminate H.
    + intros H. inversion H.
  - repeat constructor.
Defined.

Lemma nearby_mines_board_fold (g : Minesweeper.t) (c : cell) (l : list cell) :
  board_ok g → ∀ k : Z,
  foldl (λ acc n,
           count ← acc;
           if decide (n = c) then Some count
           else if in_bounds (Minesweeper.height g) (Minesweeper.width g) n
                then b ← is_mine g n;
                     Some (if b : bool then count + 1 else count)
                else Some count)
        (Some k) l
  = Some (foldl (λ count n,
                   if decide (n = c) then count
                   else if in_bounds (Minesweeper.height g)
                                     (Minesweeper.width g) n
                        then (if decide (n ∈ Minesweeper.mines g)
                              then count + 1 else count)
                        else count) k l).
Proof.
  intros [_ _ Hagree _]. induction l as [|n l IH]; intros k; [reflexivity|].
  cbn [foldl mbind option_bind].
  destruct (decide (n = c)) as [Hn|Hn]; [apply IH|].
  destruct (in_bounds (Minesweeper.height g) (Minesweeper.width g) n) eqn:Hb;
    [|apply IH].
  assert (is_mine g n = Some (bool_decide (n ∈ Minesweeper.mines g))) as ->
    by (apply Hagree; rewrite Hb; exact I).
  cbn [mbind option_bind].
  destruct (decide (n ∈ Minesweeper.mines g)) as [Hm|Hm].
  - rewrite bool_decide_eq_true_2 by exact Hm. apply IH.
  - rewrite bool_decide_eq_false_2 by exact Hm. apply IH.
Qed.

Lemma neighbors_size (h w : Z) (c : cell) : (size (neighbors h w c) ≤ 8)%nat.
Proof.
  assert (neighbors h w c ⊆ list_to_set (window c) ∖ {[c]}) as Hsub.
  { intros n. unfold neighbors.
    rewrite elem_of_filter, elem_of_difference, elem_of_singleton. tauto. }
  apply subseteq_size in Hsub.
  rewrite size_difference in Hsub.
  - rewrite size_list_to_set, size_singleton in Hsub by apply window_NoDup.
    destruct c as [r k]. unfold window in Hsub. simpl in Hsub. lia.
  - intros x ->%elem_of_singleton.
    apply elem_of_list_to_set, elem_of_window. lia.
Qed.

(** X17. On a game whose board agrees with its mine set,
    [Minesweeper.nearby_mines] never fails, for any cell (on the board or
    not): it returns the number of neighbours of the cell, inside the
    board, that are mines, a number between 0 and 8. The cell itself and
    mines outside the neighbourhood do not count. *)
Theorem nearby_mines_counts (g : Minesweeper.t) (c : cell) :
  board_ok g →
  nearby_mines_board g c
  = Some (Z.of_nat (size (neighbors (Minesweeper.height g)
                                    (Minesweeper.width g) c
                          ∩ Minesweeper.mines g))) ∧
  (size (neighbors (Minesweeper.height g) (Minesweeper.width g) c
         ∩ Minesweeper.mines g) ≤ 8)%nat ∧
  nearby_mines_board g c
  = Some (nearby_mines (Minesweeper.height g) (Minesweeper.width g)
                       (Minesweeper.mines g) c).
Proof.
  intros Hok.
  assert (nearby_mines_board g c
          = Some (nearby_mines (Minesweeper.height g) (Minesweeper.width g)
                               (Minesweeper.mines g) c)) as Heq
    by (apply (nearby_mines_board_fold g c (window c) Hok 0)).
  split; [|split; [|exact Heq]].
  - rewrite Heq, nearby_mines_spec. reflexivity.
  - etrans; [|apply (neighbors_size (Minesweeper.height g)
                       (Minesweeper.width g) c)].
    apply subseteq_size. intros x Hx. apply elem_of_intersection in Hx as [Hx _].
    exact Hx.
Qed.

Lemma nearby_mines_counts_witness :
  ∃ g, Minesweeper.init 2 3 2 [(0, 1); (1, 2)] = Some g ∧
       nearby_mines_board g (1, 1) = Some 2 ∧
       nearby_mines_board g (1, 1)
       = Some (nearby_mines 2 3 (Minesweeper.mines g) (1, 1)).
Proof.
  assert (∃ g, Minesweeper.init 2 3 2 [(0, 1); (1, 2)] = Some g ∧
               nearby_mines_board g (1, 1) = Some 2 ∧
               Minesweeper.height g = 2 ∧ Minesweeper.width g = 3)
    as (g & Hinit & Hn & Hh & Hw) by (eexists; conj_by_compute).
  exists g. split; [exact Hinit|]. split; [exact Hn|].
  assert (board_ok g) as Hok.
  { unfold board_ok. rewrite Hh, Hw.
    unfold Minesweeper.init in Hinit.
    destruct (place [(0, 1); (1, 2)] 2 ∅ (empty_board 2 3))
      as [[ms bd]|] eqn:Hp; [|discriminate Hinit].
    cbn [mbind option_bind] in Hinit. injection Hinit as <-.
    cbn [Minesweeper.mines Minesweeper.board].
    refine (proj1 (place_ok 2 3 [(0, 1); (1, 2)] _ 2 ∅ (empty_board 2 3)
                     ms bd (empty_board_ok 2 3) Hp)).
    repeat constructor. }
  pose proof (proj2 (proj2 (nearby_mines_counts g (1, 1) Hok))) as Hcount.
  rewrite Hh, Hw in Hcount. exact Hcount.
Defined.

Lemma py_index_wrap (n : nat) (i : Z) :
  - Z.of_nat n ≤ i < Z.of_nat n →
  py_index n i = Some (Z.to_nat (i `mod` Z.of_nat n)).
Proof.
  intros Hi. unfold py_index.
  destruct (decide (0 ≤ i < Z.of_nat n)) as [Hpos|Hneg].
  - rewrite Z.mod_small by lia. reflexivity.
  - rewrite decide_True by lia. do 2 f_equal.
    rewrite <- (Z.mod_add i 1 (Z.of_nat n)) by lia.
    rewrite Z.mod_small by lia. lia.
Qed.

Lemma py_index_out (n : nat) (i : Z) :
  ¬ (- Z.of_nat n ≤ i < Z.of_nat n) → py_index n i = None.
Proof.
  intros Hi. unfold py_index. rewrite !decide_False by lia. reflexivity.
Qed.

(** X18. [Minesweeper.is_mine] reads the board with Python's indexing. On
    a game whose board agrees with its mine set, a cell with row in
    [-height, height) and column in [-width, width) gets the answer for the
    cell [(row mod height, column mod width)] (negative indices wrap
    around instead of failing), and every other cell fails with
    [IndexError]. *)
Theorem is_mine_indexing (g : Minesweeper.t) (c : cell) :
  board_ok g →
  ((- Minesweeper.height g ≤ c.1 < Minesweeper.height g ∧
    - Minesweeper.width g ≤ c.2 < Minesweeper.width g) →
   is_mine g c
   = Some (bool_decide ((c.1 `mod` Minesweeper.height g,
                         c.2 `mod` Minesweeper.width g)
                        ∈ Minesweeper.mines g))) ∧
  (¬ (- Minesweeper.height g ≤ c.1 < Minesweeper.height g ∧
      - Minesweeper.width g ≤ c.2 < Minesweeper.width g) →
   is_mine g c = None).
Proof.
  intros [Hrows Hcols Hagree _].
  set (h := Minesweeper.height g) in *. set (w := Minesweeper.width g) in *.
  split.
  - intros [Hi Hj].
    assert (in_bounds h w (c.1 `mod` h, c.2 `mod` w)) as Hin.
    { apply in_bounds_spec. cbn [fst snd].
      split; apply Z.mod_pos_bound; lia. }
    rewrite <- (Hagree _ Hin). unfold is_mine, grid_at, py_getitem.
    cbn [fst snd].
    assert (Z.of_nat (length (Minesweeper.board g)) = h) as Hlen by lia.
    rewrite (py_index_wrap _ c.1) by lia.
    rewrite (py_index_in_range _ (c.1 `mod` h))
      by (rewrite Hlen; apply Z.mod_pos_bound; lia).
    rewrite Hlen. cbn [mbind option_bind].
    destruct (Minesweeper.board g !! Z.to_nat (c.1 `mod` h)) as [row|] eqn:Hrow;
      [|reflexivity].
    cbn [mbind option_bind].
    assert (Z.of_nat (length row) = w) as Hlenr.
    { pose proof (Forall_lookup_1 _ _ _ _ Hcols Hrow) as Hr.
      cbv beta in Hr. lia. }
    rewrite (py_index_wrap _ c.2) by lia.
    rewrite (py_index_in_range _ (c.2 `mod` w))
      by (rewrite Hlenr; apply Z.mod_pos_bound; lia).
    rewrite Hlenr. reflexivity.
  - intros Hout. unfold is_mine, py_getitem.
    destruct (decide (- h ≤ c.1 < h)) as [Hi|Hi].
    + assert (Z.of_nat (length (Minesweeper.board g)) = h) as Hlen by lia.
      rewrite (py_index_wrap _ c.1) by lia. cbn [mbind option_bind].
      destruct (Minesweeper.board g !! _) as [row|] eqn:Hrow; [|reflexivity].
      cbn [mbind option_bind].
      pose proof (Forall_lookup_1 _ _ _ _ Hcols Hrow) as Hr. cbv beta in Hr.
      rewrite py_index_out; [reflexivity|]. fold w in Hr. lia.
    + rewrite py_index_out; [reflexivity|]. fold h in Hrows. lia.
Qed.

Lemma is_mine_indexing_witness :
  ∃ g, Minesweeper.init 2 3 2 [(0, 1); (1, 2)] = Some g ∧
       is_mine g (-1, -1) = Some true ∧ is_mine g (2, 0) = None.
Proof.
  assert (∃ g, Minesweeper.init 2 3 2 [(0, 1); (1, 2)] = Some g ∧
               is_mine g (-1, -1) = Some true ∧ is_mine g (2, 0) = None ∧
               Minesweeper.height g = 2 ∧ Minesweeper.width g = 3)
    as (g & Hinit & Hwrap & Hout & Hh & Hw) by (eexists; conj_by_compute).
  exists g. split; [exact Hinit|]. split; [exact Hwrap|].
  refine (proj2 (is_mine_indexing g (2, 0) _) _).
  - unfold board_ok. rewrite Hh, Hw.
    unfold Minesweeper.init in Hinit.
    destruct (place [(0, 1); (1, 2)] 2 ∅ (empty_board 2 3)) as [[ms bd]|] eqn:Hp;
      [|discriminate Hinit].
    cbn [mbind option_bind] in Hinit. injection Hinit as <-.
    cbn [Minesweeper.mines Minesweeper.board].
    refine (proj1 (place_ok 2 3 [(0, 1); (1, 2)] _ 2 ∅ (empty_board 2 3) ms bd
                     (empty_board_ok 2 3) Hp)).
    repeat constructor.
  - rewrite Hh, Hw. cbn [fst snd]. lia.
Defined.

Lemma place_size (draws : list cell) :
  ∀ wanted ms bd ms' bd',
  place draws wanted ms bd = Some (ms', bd') → Z.of_nat (size ms') = wanted.
Proof.
  induction draws as [|[i j] draws IH]; intros wanted ms bd ms' bd' Hrun;
    simpl in Hrun.
  - destruct (decide (Z.of_nat (size ms) = wanted)) as [Hsz|]; [|discriminate].
    injection Hrun as <- <-. exact Hsz.
  - destruct (decide (Z.of_nat (size ms) = wanted)) as [Hsz|Hsz].
    { injection Hrun as <- <-. exact Hsz. }
    destruct (py_getitem bd i) as [row|]; [|discriminate].
    cbn [mbind option_bind] in Hrun.
    destruct (py_getitem row j) as [[|]|]; [| |discriminate];
      cbn [mbind option_bind] in Hrun.
    + eapply IH, Hrun.
    + destruct (py_setitem row j true) as [row'|]; [|discriminate].
      cbn [mbind option_bind] in Hrun.
      destruct (py_setitem bd i row') as [bd2|]; [|discriminate].
      cbn [mbind option_bind] in Hrun.
      eapply IH, Hrun.
Qed.

(** X19. A game fresh from [Minesweeper.__init__] has found no mine, so
    [won] holds at that point exactly when the game was asked for no
    mines at all. *)
Theorem new_game_won (h w wanted : Z) (draws : list cell) (g : Minesweeper.t) :
  Minesweeper.init h w wanted draws = Some g →
  won g = true ↔ wanted = 0.
Proof.
  intros Hinit. unfold Minesweeper.init in Hinit.
  destruct (place draws wanted ∅ (empty_board h w)) as [[ms bd]|] eqn:Hplace;
    [|discriminate].
  cbn [mbind option_bind] in Hinit. injection Hinit as <-.
  apply place_size in Hplace.
  unfold won. cbn [mines_found Minesweeper.mines].
  rewrite bool_decide_eq_true. split.
  - intros <-. rewrite size_empty in Hplace. lia.
  - intros ->. symmetry. apply leibniz_equiv, size_empty_inv. lia.
Qed.

Lemma new_game_won_witness :
  ∃ g, Minesweeper.init 2 3 2 [(0, 1); (1, 2)] = Some g ∧ won g = false.
Proof.
  assert (∃ g, Minesweeper.init 2 3 2 [(0, 1); (1, 2)] = Some g)
    as (g & Hinit) by (eexists; by_compute).
  exists g. split; [exact Hinit|].
  destruct (won g) eqn:Hwon; [|reflexivity].
  apply (new_game_won 2 3 2 [(0, 1); (1, 2)] g Hinit) in Hwon.
  discriminate Hwon.
Defined.
